(** * Road-surface telemetry pipeline: agent, edge classifier and store

    A shallow embedding of the three Python services of the repository
    and the properties their specification states about them:

    - [Edge]  : [src/edge/app/usecases/data_processing.py], the road-state
                classifier [process_agent_data];
    - [Agent] : [src/agent/src/file_datasource.py], the aggregation loop of
                [FileDatasource.read];
    - [Store] : [src/store/main.py], the CRUD handlers over the
                [processed_agent_data] table and the WebSocket
                subscription registry.

    Python objects that the code mutates are kept in an explicit heap,
    handlers that touch the database or the registry pass their state
    explicitly, and a raised exception is a constructor of the result. *)

From Stdlib Require Import ZArith Lia.
From Stdlib Require Import Floats.PrimFloat.
From stdpp Require Import gmap strings list pretty.

Local Open Scope string_scope.
Local Open Scope list_scope.
Local Open Scope Z_scope.

(** Python's [float] is an IEEE-754 double. *)
Abbreviation float := PrimFloat.float.

(** Python's [datetime]: calendar fields, and the UTC offset in minutes
    of an aware value ([None] for a naive one).  The code only carries
    these values around, reads the clock and renders them as text. *)
Record datetime := {
  year : Z; month : Z; day : Z;
  hour : Z; minute : Z; second : Z; microsecond : Z;
  utcoffset : option Z
}.

(** Exceptions the code raises or lets through. *)
Inductive Exception :=
| HTTPException (status_code : Z) (detail : string)
| KeyError
| ValueError (message : string)
| WebSocketDisconnect
| DatabaseError (message : string).

(** Outcome of a call: the returned value or the exception raised. *)
Inductive Result (A : Type) :=
| Return (a : A)
| Raise (e : Exception).
Arguments Return {A} a.
Arguments Raise {A} e.

(* ===================================================================== *)
(** * Edge: the road-state classifier                                     *)
(* ===================================================================== *)

Module Edge.

(** Modelled from the spec: the entity classes of
    [app/entities/agent_data.py] and [app/entities/processed_agent_data.py]
    are imported by the use case but are not part of the sources.  Their
    fields follow the data model of the specification (an integer
    accelerometer triple, a GPS pair, a user id and a timestamp). *)
Record AccelerometerData := { x : Z; y : Z; z : Z }.
Record GpsData := { latitude : float; longitude : float }.
Record AgentData := {
  user_id : Z;
  accelerometer : AccelerometerData;
  gps : GpsData;
  timestamp : datetime
}.
Record ProcessedAgentData := {
  road_state : string;
  agent_data : AgentData
}.

(** ** Object heap

    [ProcessedAgentData(...)] allocates an object and
    [process_data.road_state = ...] assigns to a field of that same
    object, so objects live in a heap and are named by references. *)
Abbreviation ref := nat.
Abbreviation Heap := (list ProcessedAgentData).

(** A small state monad over the heap. *)
Definition M (A : Type) : Type := Heap -> A * Heap.
Definition ret {A} (a : A) : M A := fun h => (a, h).
Definition bind {A B} (m : M A) (k : A -> M B) : M B :=
  fun h => let '(a, h1) := m h in k a h1.

Declare Scope heap_scope.
Delimit Scope heap_scope with heap.
Notation "x <- m ;; k" := (bind m (fun x => k))
  (at level 100, m at next level, right associativity) : heap_scope.
Notation "m ;;; k" := (bind m (fun _ => k))
  (at level 100, right associativity) : heap_scope.

(** Constructor call: a fresh reference to a new object. *)
Definition new (v : ProcessedAgentData) : M ref :=
  fun h => (length h, h ++ [v]).

(** Attribute assignment [p.road_state = s] on the object behind [p]. *)
Definition set_road_state (p : ref) (s : string) : M unit :=
  fun h =>
    (tt, alter (fun o => {| road_state := s; agent_data := agent_data o |}) p h).

(** [process_agent_data] (lines 5-25). *)
Definition process_agent_data (agent_data : AgentData) : M ref :=
  (process_data <- new {| road_state := "unknown"; agent_data := agent_data |} ;;
   (if y (accelerometer agent_data) <? -100 then
      set_road_state process_data "pit"
    else if y (accelerometer agent_data) >? 100 then
      set_road_state process_data "hill"
    else
      set_road_state process_data "flat") ;;;
   ret process_data)%heap.

(** The object a call returns, read from the heap the call leaves. *)
Definition returned (agent_data : AgentData) (h : Heap)
  : option ProcessedAgentData :=
  let '(p, h') := process_agent_data agent_data h in h' !! p.

(** ** Statements about the classifier *)

(** The label the branches of lines 18-23 choose. *)
Definition label_of (a : AgentData) : string :=
  if y (accelerometer a) <? -100 then "pit"
  else if y (accelerometer a) >? 100 then "hill"
  else "flat".

(** ** The heaps a call goes through

    The same computations, which also record the heap that each
    operation on the heap leaves, oldest first. *)
Definition T (A : Type) : Type := Heap -> A * Heap * list Heap.
Definition tret {A} (a : A) : T A := fun h => (a, h, []).
Definition tbind {A B} (m : T A) (k : A -> T B) : T B :=
  fun h =>
    let '(a, h1, t1) := m h in
    let '(b, h2, t2) := k a h1 in
    (b, h2, t1 ++ t2).

(** One operation on the heap, [new] or [set_road_state], recorded. *)
Definition step {A} (m : M A) : T A :=
  fun h => let '(a, h') := m h in (a, h', [h']).

(** [process_agent_data] (lines 5-25) again, operation by operation:
    the constructor call of line 16, then the assignment of the branch
    taken at lines 18-23. *)
Definition process_agent_data_steps (agent_data : AgentData) : T ref :=
  tbind (step (new {| road_state := "unknown"; agent_data := agent_data |}))
    (fun process_data =>
       tbind (if y (accelerometer agent_data) <? -100 then
                step (set_road_state process_data "pit")
              else if y (accelerometer agent_data) >? 100 then
                step (set_road_state process_data "hill")
              else
                step (set_road_state process_data "flat"))
         (fun _ => tret process_data)).

(** No operation of a run changes an object that is already on the
    heap: from each heap of the run to the next, every reference keeps
    its value. *)
Definition never_mutated (start : Heap) (history : list Heap) : Prop :=
  forall (i : nat) (before after : Heap) (p : ref) (v : ProcessedAgentData),
    (start :: history) !! i = Some before ->
    (start :: history) !! S i = Some after ->
    before !! p = Some v ->
    after !! p = Some v.

(** The reading of "immutable once created" on this code: no call of the
    classifier, on any heap, changes an object in place. *)
Definition no_call_mutates : Prop :=
  forall (a : AgentData) (h : Heap),
    never_mutated h (process_agent_data_steps a h).2.

(** A run of calls of the classifier, one per input, in turn. *)
Fixpoint process_all (inputs : list AgentData) : M (list ref) :=
  match inputs with
  | [] => ret []
  | a :: rest =>
      (p <- process_agent_data a ;;
       ps <- process_all rest ;;
       ret (p :: ps))%heap
  end.

End Edge.


(* ===================================================================== *)
(** * Agent: aggregation of the three sensor sequences                    *)
(* ===================================================================== *)

Module Agent.

(** Modelled from the spec: the classes of [domain/accelerometer.py],
    [domain/gps.py], [domain/parking.py] and [domain/aggregated_data.py]
    are imported by the data source but are not part of the sources.
    Their fields are listed in the order in which [file_datasource.py]
    passes the constructor arguments. *)
Record Accelerometer := { x : Z; y : Z; z : Z }.
Record Gps := { longitude : float; latitude : float }.
Record Parking := { empty_count : Z; location : Gps }.
Record AggregatedData := {
  accelerometer : Accelerometer;
  gps : Gps;
  parking : Parking;
  timestamp : datetime;
  user_id : Z
}.

(** Python's [zip] of three sequences: stops at the shortest. *)
Fixpoint zip {A B C : Type} (a : list A) (b : list B) (c : list C)
  : list (A * B * C) :=
  match a, b, c with
  | x :: a', y :: b', z :: c' => (x, y, z) :: zip a' b' c'
  | _, _, _ => []
  end.

Section FileDatasource.

(** [config.USER_ID], a constant of a module outside the sources. *)
Variable USER_ID : Z.

(** The system clock: [now k] is what the [k]-th call of
    [datetime.now()] returns.  The number of calls made so far is the
    state the loop threads. *)
Variable now : nat -> datetime.

(** The [for] loop of [read] (lines 34-43): one [AggregatedData] is
    appended per triple, each with its own reading of the clock. *)
Fixpoint read_loop (triples : list (Accelerometer * Gps * Parking))
    (aggregated_data : list AggregatedData) (k : nat)
  : list AggregatedData * nat :=
  match triples with
  | [] => (aggregated_data, k)
  | (accelerometer, gps, parking) :: rest =>
      read_loop rest
        (aggregated_data ++
           [ {| accelerometer := accelerometer; gps := gps;
                parking := parking; timestamp := now k;
                user_id := USER_ID |} ])
        (S k)
  end.

(** [FileDatasource.read] (lines 26-45).  The three arguments are the
    outcomes of [read_accelerometer_data], [read_gps_data] and
    [read_parking_data], called in this order; an exception of a reader
    leaves [read] at once. *)
Definition read
    (read_accelerometer_data : Result (list Accelerometer))
    (read_gps_data : Result (list Gps))
    (read_parking_data : Result (list Parking))
    (k : nat) : Result (list AggregatedData) * nat :=
  match read_accelerometer_data with
  | Raise e => (Raise e, k)
  | Return accelerometer_data =>
    match read_gps_data with
    | Raise e => (Raise e, k)
    | Return gps_data =>
      match read_parking_data with
      | Raise e => (Raise e, k)
      | Return parking_data =>
          let '(aggregated_data, k') :=
            read_loop (zip accelerometer_data gps_data parking_data) [] k in
          (Return aggregated_data, k')
      end
    end
  end.

(** What the aggregation builds from the triple at position [i] when
    [k] readings of the clock had been taken before the loop. *)
Definition aggregate (k i : nat) (t : Accelerometer * Gps * Parking)
  : AggregatedData :=
  {| accelerometer := t.1.1; gps := t.1.2; parking := t.2;
     timestamp := now (k + i); user_id := USER_ID |}.

End FileDatasource.

(** ** The CSV readers (lines 73-91)

    What [csv.reader] yields for a file that could be opened and has at
    least one line: the header row, which the readers skip with
    [next(reader)], and the data rows, each a list of fields. *)
Record CsvFile := {
  header : list string;
  records : list (list string)
}.

Section Readers.

(** Python's [int] and [float] on a field: [None] when the call raises
    [ValueError]. *)
Variable int : string -> option Z.
Variable to_float : string -> option float.

(** The message of the [ValueError] with which unpacking
    [map(convert, row)] into [n] names fails on [row]. *)
Variable unpack_error : nat -> list string -> string.

(** [a, b, c = map(convert, row)]: the row must have exactly three
    fields and [convert] must accept each of them; every other row
    raises [ValueError], from [convert] or from the unpacking. *)
Definition unpack3 {A : Type} (convert : string -> option A) (row : list string)
  : Result (A * A * A) :=
  match row with
  | [a; b; c] =>
      match convert a, convert b, convert c with
      | Some x, Some y, Some z => Return (x, y, z)
      | _, _, _ => Raise (ValueError (unpack_error 3 row))
      end
  | _ => Raise (ValueError (unpack_error 3 row))
  end.

(** [a, b = map(convert, row)]. *)
Definition unpack2 {A : Type} (convert : string -> option A) (row : list string)
  : Result (A * A) :=
  match row with
  | [a; b] =>
      match convert a, convert b with
      | Some x, Some y => Return (x, y)
      | _, _ => Raise (ValueError (unpack_error 2 row))
      end
  | _ => Raise (ValueError (unpack_error 2 row))
  end.

(** The [for row in reader] loop of a reader: each row is parsed and the
    value appended; the exception of a row leaves the reader, and the
    list built so far is lost with it. *)
Fixpoint read_rows {A : Type} (parse : list string -> Result A)
    (rows : list (list string)) (data : list A) : Result (list A) :=
  match rows with
  | [] => Return data
  | row :: rest =>
      match parse row with
      | Return value => read_rows parse rest (data ++ [value])
      | Raise e => Raise e
      end
  end.

(** Lines 79-80: [x, y, z = map(int, row)] and [Accelerometer(x, y, z)]. *)
Definition parse_accelerometer (row : list string) : Result Accelerometer :=
  match unpack3 int row with
  | Return (x, y, z) => Return {| x := x; y := y; z := z |}
  | Raise e => Raise e
  end.

(** Lines 89-90: [longitude, latitude = map(float, row)] and
    [Gps(longitude, latitude)]. *)
Definition parse_gps (row : list string) : Result Gps :=
  match unpack2 to_float row with
  | Return (longitude, latitude) =>
      Return {| longitude := longitude; latitude := latitude |}
  | Raise e => Raise e
  end.

(** [read_accelerometer_data] (lines 73-81). *)
Definition read_accelerometer_data (file : CsvFile) : Result (list Accelerometer) :=
  read_rows parse_accelerometer (records file) [].

(** [read_gps_data] (lines 83-91). *)
Definition read_gps_data (file : CsvFile) : Result (list Gps) :=
  read_rows parse_gps (records file) [].

(** A row [read_accelerometer_data] accepts, and what it stands for. *)
Definition accelerometer_row (row : list string) (a : Accelerometer) : Prop :=
  exists sx sy sz : string,
    row = [sx; sy; sz] /\
    int sx = Some (x a) /\ int sy = Some (y a) /\ int sz = Some (z a).

(** A row [read_gps_data] accepts: the longitude comes first. *)
Definition gps_row (row : list string) (g : Gps) : Prop :=
  exists slon slat : string,
    row = [slon; slat] /\
    to_float slon = Some (longitude g) /\ to_float slat = Some (latitude g).

End Readers.

End Agent.

(* ===================================================================== *)
(** * Store: the table, its CRUD handlers and the subscription registry   *)
(* ===================================================================== *)

Module Store.

(** ** Request models (lines 64-96) *)

Record AccelerometerData := { x : float; y : float; z : float }.
Record GpsData := { latitude : float; longitude : float }.
Record AgentData := {
  user_id : Z;
  accelerometer : AccelerometerData;
  gps : GpsData;
  timestamp : datetime
}.
Record ProcessedAgentData := {
  road_state : string;
  agent_data : AgentData
}.

(** ** The table (lines 34-46) and its row model (lines 51-60)

    A row of [processed_agent_data]; [c_road_state] stands for the column
    [processed_agent_data.c.road_state], and so on. *)
Record ProcessedAgentDataInDB := {
  id : Z;
  c_road_state : string;
  c_user_id : Z;
  c_x : float;
  c_y : float;
  c_z : float;
  c_latitude : float;
  c_longitude : float;
  c_timestamp : datetime
}.

(** The dictionary [insert_values] of lines 136-145: the same columns
    without [id], the timestamp already rendered as text. *)
Record InsertValues := {
  v_road_state : string;
  v_user_id : Z;
  v_x : float;
  v_y : float;
  v_z : float;
  v_latitude : float;
  v_longitude : float;
  v_timestamp : string
}.

(** The database: the rows of the table in insertion order, and the next
    value of the sequence behind the primary key. *)
Record Database := {
  rows : list ProcessedAgentDataInDB;
  next_id : Z
}.

(** A WebSocket connection object, named by its identity. *)
Abbreviation WebSocket := nat.

(** The state of the service process: the database behind [SessionLocal],
    the global [subscriptions] dictionary (line 100), the connections
    whose peer has gone away (a send on them raises), and the messages
    sent over WebSockets so far, oldest first. *)
Record App := {
  db : Database;
  subscriptions : gmap Z (gset WebSocket);
  closed : gset WebSocket;
  sent : list (WebSocket * string)
}.

(** What the handlers call but the sources do not define: the Python
    library ([datetime.isoformat], [json.dumps]) and the database engine
    (the value a [DateTime] column holds for a timestamp given as text,
    as an insert does, or as a [datetime], as an update does, and the
    error, if any, with which the engine rejects an insert or the values
    of an update). *)
Class Externals := {
  isoformat : datetime -> string;
  json_dumps : string -> string;
  column_datetime : string -> datetime;
  insert_error : Database -> InsertValues -> option string;
  column_of_datetime : datetime -> datetime;
  update_error : Z -> ProcessedAgentData -> option string
}.

Section Handlers.
Context `{Externals}.

(** ** Session operations *)

Definition row_of_values (i : Z) (v : InsertValues) : ProcessedAgentDataInDB :=
  {| id := i;
     c_road_state := v_road_state v;
     c_user_id := v_user_id v;
     c_x := v_x v; c_y := v_y v; c_z := v_z v;
     c_latitude := v_latitude v; c_longitude := v_longitude v;
     c_timestamp := column_datetime (v_timestamp v) |}.

(** [session.execute(processed_agent_data.insert().values(v))] followed
    by [session.commit()]: the row gets the next id of the sequence.
    [inr m] stands for an exception [e] of the engine with [str(e) = m]. *)
Definition execute_insert (d : Database) (v : InsertValues) : Database + string :=
  match insert_error d v with
  | Some message => inr message
  | None =>
      inl {| rows := rows d ++ [row_of_values (next_id d) v];
             next_id := next_id d + 1 |}
  end.

(** [select(processed_agent_data).where(c.id == i)] then [.first()]. *)
Definition select_first (d : Database) (i : Z) : option ProcessedAgentDataInDB :=
  List.find (fun r => id r =? i) (rows d).

(** [select(processed_agent_data)] then [.all()]: always a list. *)
Definition select_all (d : Database) : option (list ProcessedAgentDataInDB) :=
  Some (rows d).

(** The table once the statement
    [processed_agent_data.update().where(c.id == i).values(...)] has
    taken effect; the timestamp is handed over as a [datetime] here and
    the column holds what the engine makes of it. *)
Definition updated_table (d : Database) (i : Z) (data : ProcessedAgentData)
  : Database :=
  {| rows :=
       map (fun r =>
              if id r =? i then
                {| id := id r;
                   c_road_state := road_state data;
                   c_user_id := user_id (agent_data data);
                   c_x := x (accelerometer (agent_data data));
                   c_y := y (accelerometer (agent_data data));
                   c_z := z (accelerometer (agent_data data));
                   c_latitude := latitude (gps (agent_data data));
                   c_longitude := longitude (gps (agent_data data));
                   c_timestamp :=
                     column_of_datetime (timestamp (agent_data data)) |}
              else r)
           (rows d);
     next_id := next_id d |}.

(** [session.execute(...update...)] followed by [session.commit()]
    (lines 213-225).  [inr m] stands for an exception [e] of the engine
    with [str(e) = m]: nothing is committed then. *)
Definition execute_update (d : Database) (i : Z) (data : ProcessedAgentData)
  : Database + string :=
  match update_error i data with
  | Some message => inr message
  | None => inl (updated_table d i data)
  end.

(** [processed_agent_data.delete().where(c.id == i)] and commit. *)
Definition execute_delete (d : Database) (i : Z) : Database :=
  {| rows := List.filter (fun r => negb (id r =? i)) (rows d);
     next_id := next_id d |}.

Definition with_db (app : App) (d : Database) : App :=
  {| db := d; subscriptions := subscriptions app;
     closed := closed app; sent := sent app |}.

Definition with_subscriptions (app : App) (s : gmap Z (gset WebSocket)) : App :=
  {| db := db app; subscriptions := s;
     closed := closed app; sent := sent app |}.

Definition with_sent (app : App) (l : list (WebSocket * string)) : App :=
  {| db := db app; subscriptions := subscriptions app;
     closed := closed app; sent := l |}.

(** ** The WebSocket endpoint (lines 104-114) *)

(** Lines 106-109: the connection is accepted and added to the set of
    its user, which is created when absent. *)
Definition websocket_endpoint_accept (websocket : WebSocket) (user_id : Z)
    (app : App) : App :=
  let subscriptions1 :=
    match subscriptions app !! user_id with
    | None => <[user_id := ∅]> (subscriptions app)
    | Some _ => subscriptions app
    end in
  with_subscriptions app
    (alter (fun s => s ∪ {[websocket]}) user_id subscriptions1).

(** Line 114, the handler of [WebSocketDisconnect]:
    [subscriptions[user_id].remove(websocket)].  Both the dictionary
    subscript and [set.remove] raise [KeyError] on a missing element. *)
Definition websocket_endpoint_disconnect (websocket : WebSocket) (user_id : Z)
    (app : App) : Result unit * App :=
  match subscriptions app !! user_id with
  | None => (Raise KeyError, app)
  | Some s =>
      if decide (websocket ∈ s) then
        (Return tt,
         with_subscriptions app
           (<[user_id := s ∖ {[websocket]}]> (subscriptions app)))
      else (Raise KeyError, app)
  end.

(** The whole handler for a client that connects and later disconnects,
    nothing else touching the registry in between: the texts received
    by the loop of lines 111-112 are dropped. *)
Definition websocket_endpoint (websocket : WebSocket) (user_id : Z)
    (app : App) : Result unit * App :=
  websocket_endpoint_disconnect websocket user_id
    (websocket_endpoint_accept websocket user_id app).

(** ** Fan-out (lines 118-121) *)

(** The [for] loop of line 120 over the listeners, in the iteration order
    of the set.  [sent] records the argument of each [send_json]; a send
    on a connection whose peer is gone raises, and nothing catches it. *)
Fixpoint send_loop (websockets : list WebSocket) (message : string)
    (app : App) : Result unit * App :=
  match websockets with
  | [] => (Return tt, app)
  | websocket :: rest =>
      if decide (websocket ∈ closed app) then (Raise WebSocketDisconnect, app)
      else send_loop rest message
             (with_sent app (sent app ++ [(websocket, message)]))
  end.

Definition send_data_to_subscribers (user_id : Z) (data : string)
    (app : App) : Result unit * App :=
  match subscriptions app !! user_id with
  | Some s => send_loop (elements s) (json_dumps data) app
  | None => (Return tt, app)
  end.

(** ** CRUD handlers *)

Definition insert_values_of (item : ProcessedAgentData) : InsertValues :=
  {| v_road_state := road_state item;
     v_user_id := user_id (agent_data item);
     v_x := x (accelerometer (agent_data item));
     v_y := y (accelerometer (agent_data item));
     v_z := z (accelerometer (agent_data item));
     v_latitude := latitude (gps (agent_data item));
     v_longitude := longitude (gps (agent_data item));
     v_timestamp := isoformat (timestamp (agent_data item)) |}.

(** The [for] loop of lines 134-151: one insert and one commit per item;
    the first failing insert is rolled back and ends the request with
    status 400, the rows committed before it stay. *)
Fixpoint insert_loop (data : list ProcessedAgentData)
    (inserted_records : list InsertValues) (app : App)
  : Result (list InsertValues) * App :=
  match data with
  | [] => (Return inserted_records, app)
  | item :: rest =>
      let insert_values := insert_values_of item in
      match execute_insert (db app) insert_values with
      | inl d =>
          insert_loop rest (inserted_records ++ [insert_values]) (with_db app d)
      | inr message =>
          (Raise (HTTPException 400 ("Error inserting data: " +:+ message)), app)
      end
  end.

(** [create_processed_agent_data] (lines 127-159). *)
Definition create_processed_agent_data (data : list ProcessedAgentData)
    (app : App) : Result InsertValues * App :=
  match insert_loop data [] app with
  | (Raise e, app') => (Raise e, app')
  | (Return inserted_records, app') =>
      match inserted_records with
      | first :: _ => (Return first, app')
      | [] => (Raise (HTTPException 400 "No data inserted"), app')
      end
  end.

Definition not_found (processed_agent_data_id : Z) : Exception :=
  HTTPException 404
    ("ProcessedAgentData with id:" +:+ pretty processed_agent_data_id
       +:+ " not found").

(** [read_processed_agent_data] (lines 162-179). *)
Definition read_processed_agent_data (processed_agent_data_id : Z)
    (app : App) : Result ProcessedAgentDataInDB * App :=
  match select_first (db app) processed_agent_data_id with
  | None => (Raise (not_found processed_agent_data_id), app)
  | Some result => (Return result, app)
  end.

(** [list_processed_agent_data] (lines 182-194). *)
Definition list_processed_agent_data (app : App)
  : Result (list ProcessedAgentDataInDB) * App :=
  match select_all (db app) with
  | None => (Raise (HTTPException 404 "No data was found"), app)
  | Some result => (Return result, app)
  end.

(** [update_processed_agent_data] (lines 197-233).  A fetched row has
    nine columns, so [if record:] holds whenever the row is not [None];
    the value returned is the row selected again after the commit.  No
    [except] catches an exception of the engine: it leaves the handler,
    the session is closed and nothing has been committed. *)
Definition update_processed_agent_data (processed_agent_data_id : Z)
    (data : ProcessedAgentData) (app : App)
  : Result (option ProcessedAgentDataInDB) * App :=
  match select_first (db app) processed_agent_data_id with
  | None => (Raise (not_found processed_agent_data_id), app)
  | Some record =>
      match execute_update (db app) processed_agent_data_id data with
      | inl d =>
          (Return (select_first d processed_agent_data_id), with_db app d)
      | inr message => (Raise (DatabaseError message), app)
      end
  end.

(** [delete_processed_agent_data] (lines 236-257). *)
Definition delete_processed_agent_data (processed_agent_data_id : Z)
    (app : App) : Result ProcessedAgentDataInDB * App :=
  match select_first (db app) processed_agent_data_id with
  | None => (Raise (not_found processed_agent_data_id), app)
  | Some record =>
      (Return record,
       with_db app (execute_delete (db app) processed_agent_data_id))
  end.

(** ** Statements about the handlers *)

(** No row of the table carries the id [i]. *)
Definition absent (i : Z) (d : Database) : Prop :=
  forall r : ProcessedAgentDataInDB, r ∈ rows d -> id r <> i.

(** Every id in the table was drawn from the sequence, which is ahead of
    all of them: the state of a table filled through the handlers. *)
Definition ids_below_sequence (d : Database) : Prop :=
  forall r : ProcessedAgentDataInDB, r ∈ rows d -> id r < next_id d.

(** The reading of C3 on this code: whenever the store accepts [r], the
    row read under the id the create assigned carries every field of
    [r], the timestamp included. *)
Definition reads_back_every_field : Prop :=
  forall (r : ProcessedAgentData) (app : App),
    ids_below_sequence (db app) ->
    insert_error (db app) (insert_values_of r) = None ->
    exists (app' : App) (row : ProcessedAgentDataInDB),
      create_processed_agent_data [r] app = (Return (insert_values_of r), app') /\
      read_processed_agent_data (next_id (db app)) app' = (Return row, app') /\
      c_road_state row = road_state r /\
      c_user_id row = user_id (agent_data r) /\
      c_x row = x (accelerometer (agent_data r)) /\
      c_y row = y (accelerometer (agent_data r)) /\
      c_z row = z (accelerometer (agent_data r)) /\
      c_latitude row = latitude (gps (agent_data r)) /\
      c_longitude row = longitude (gps (agent_data r)) /\
      c_timestamp row = timestamp (agent_data r).

(** The reading of C2 on this code: the per-record outcomes can be read
    off the result of the request, one for each submitted record. *)
Definition enumerates_every_record : Prop :=
  exists outcomes : Result InsertValues -> list (InsertValues + Exception),
    forall (data : list ProcessedAgentData) (app : App),
      length (outcomes (fst (create_processed_agent_data data app)))
      = length data.

(** The reading of C5 on this code: when a listener of a set of at least
    two has a broken connection, the publish still reaches every listener
    whose connection is open, and the broken one is no longer in the set
    afterwards. *)
Definition failure_isolated : Prop :=
  forall (user_id : Z) (data : string) (app : App) (s : gset WebSocket)
         (bad : WebSocket),
    subscriptions app !! user_id = Some s ->
    (2 <= size s)%nat ->
    bad ∈ s ->
    bad ∈ closed app ->
    (forall ws : WebSocket,
        ws ∈ s -> ws ∉ closed app ->
        (ws, json_dumps data)
          ∈ sent (snd (send_data_to_subscribers user_id data app))) /\
    (forall s' : gset WebSocket,
        subscriptions (snd (send_data_to_subscribers user_id data app))
          !! user_id = Some s' ->
        bad ∉ s').

(** ** Runs of the service

    The states the process goes through, with the connections whose
    handler is in its receiving loop (lines 111-112) and the WebSocket
    objects seen so far.  The process starts with the empty dictionary of
    line 100.  A connection brings a WebSocket object of its own, which
    its handler adds at line 109; the handler of a connection in its
    loop removes that object at line 114 when the client disconnects and
    ends, or ends on another exception without removing anything;
    everything else that happens (the CRUD handlers, a publish, a peer
    going away) leaves the dictionary as it is. *)
Inductive runs : list (WebSocket * Z) -> gset WebSocket -> App -> Prop :=
| runs_start (d : Database) (c : gset WebSocket) (l : list (WebSocket * string)) :
    runs [] ∅ {| db := d; subscriptions := ∅; closed := c; sent := l |}
| runs_connect (live : list (WebSocket * Z)) (seen : gset WebSocket) (app : App)
    (websocket : WebSocket) (user_id : Z) :
    runs live seen app ->
    websocket ∉ seen ->
    runs ((websocket, user_id) :: live) ({[websocket]} ∪ seen)
      (websocket_endpoint_accept websocket user_id app)
| runs_disconnect (live : list (WebSocket * Z)) (seen : gset WebSocket) (app : App)
    (websocket : WebSocket) (user_id : Z) :
    runs live seen app ->
    (websocket, user_id) ∈ live ->
    runs (filter (fun c => c <> (websocket, user_id)) live) seen
      (snd (websocket_endpoint_disconnect websocket user_id app))
| runs_abort (live : list (WebSocket * Z)) (seen : gset WebSocket) (app : App)
    (websocket : WebSocket) (user_id : Z) :
    runs live seen app ->
    runs (filter (fun c => c <> (websocket, user_id)) live) seen app
| runs_other (live : list (WebSocket * Z)) (seen : gset WebSocket) (app app' : App) :
    runs live seen app ->
    subscriptions app' = subscriptions app ->
    runs live seen app'.

(** The primary key: no two rows of the table carry the same id. *)
Definition unique_ids (d : Database) : Prop :=
  NoDup (map id (rows d)).

(** A table as the handlers build it: unique ids, all below the sequence. *)
Definition well_formed (d : Database) : Prop :=
  unique_ids d /\ ids_below_sequence d.

(** The row an update writes for [data] under the id [i]. *)
Definition row_of_data (i : Z) (data : ProcessedAgentData)
  : ProcessedAgentDataInDB :=
  {| id := i;
     c_road_state := road_state data;
     c_user_id := user_id (agent_data data);
     c_x := x (accelerometer (agent_data data));
     c_y := y (accelerometer (agent_data data));
     c_z := z (accelerometer (agent_data data));
     c_latitude := latitude (gps (agent_data data));
     c_longitude := longitude (gps (agent_data data));
     c_timestamp := column_of_datetime (timestamp (agent_data data)) |}.

(** The rows a run of inserts appends for [items] when the sequence
    stands at [first]: consecutive ids in the order of the items. *)
Definition stored_rows (first : Z) (items : list ProcessedAgentData)
  : list ProcessedAgentDataInDB :=
  imap (fun k item => row_of_values (first + Z.of_nat k) (insert_values_of item))
       items.

(** The engine accepts every record of the batch, whatever the table. *)
Definition accepted (data : list ProcessedAgentData) : Prop :=
  forall (d : Database) (item : ProcessedAgentData),
    item ∈ data -> insert_error d (insert_values_of item) = None.

End Handlers.

End Store.

(* ===================================================================== *)
(** * Sample requests and states                                          *)
(* ===================================================================== *)

Module Sample.
Import Store.

Definition noon : datetime :=
  {| year := 2024; month := 3; day := 9;
     hour := 12; minute := 0; second := 0; microsecond := 0;
     utcoffset := None |}.

(** An engine whose [user_id] column is a 32-bit integer, which knows one
    instant when handed a text, and whose [DateTime] column keeps no
    offset when handed a [datetime]. *)
Definition engine : Externals :=
  {| isoformat := fun _ => "2024-03-09T12:00:00";
     json_dumps := fun data => data;
     column_datetime := fun _ => noon;
     insert_error := fun _ v =>
       if (-2147483648 <=? v_user_id v) && (v_user_id v <=? 2147483647)
       then None else Some "integer out of range";
     column_of_datetime := fun t =>
       {| year := year t; month := month t; day := day t;
          hour := hour t; minute := minute t; second := second t;
          microsecond := microsecond t; utcoffset := None |};
     update_error := fun _ data =>
       if (-2147483648 <=? user_id (agent_data data))
          && (user_id (agent_data data) <=? 2147483647)
       then None else Some "integer out of range" |}.

Definition record (user : Z) (state : string) : ProcessedAgentData :=
  {| road_state := state;
     agent_data :=
       {| user_id := user;
          accelerometer := {| x := 1%float; y := 5%float; z := 16500%float |};
          gps := {| latitude := 50.5%float; longitude := 30.25%float |};
          timestamp := noon |} |}.

Definition empty_app : App :=
  {| db := {| rows := []; next_id := 1 |};
     subscriptions := ∅; closed := ∅; sent := [] |}.

(** Two rows, with the ids 1 and 2. *)
Definition two_rows_app : App :=
  {| db := {| rows := [ row_of_values (H := engine) 1
                          (insert_values_of (H := engine) (record 7 "flat"));
                        row_of_values (H := engine) 2
                          (insert_values_of (H := engine) (record 7 "pit")) ];
              next_id := 3 |};
     subscriptions := ∅; closed := ∅; sent := [] |}.

(** Listener 1 is connected and subscribed to user 7. *)
Definition listening_app : App :=
  {| db := {| rows := []; next_id := 1 |};
     subscriptions := {[ 7 := {[ 1%nat ]} ]};
     closed := ∅; sent := [] |}.

(** Listeners 1 and 2 are subscribed to user 42; the peer of listener 2
    has gone away. *)
Definition fan_out_app : App :=
  {| db := {| rows := []; next_id := 1 |};
     subscriptions := {[ 42 := {[ 1%nat; 2%nat ]} ]};
     closed := {[ 2%nat ]}; sent := [] |}.

(** Listener 1, then listener 2, have connected for user 7. *)
Definition two_listeners_app : App :=
  websocket_endpoint_accept 2%nat 7
    (websocket_endpoint_accept 1%nat 7 empty_app).

(** Sensor sequences of lengths 3, 5 and 4. *)
Definition accelerometer_rows : list Agent.Accelerometer :=
  [ Agent.Build_Accelerometer 1 4 16500;
    Agent.Build_Accelerometer 2 (-120) 16400;
    Agent.Build_Accelerometer 3 130 16300 ].

Definition gps_rows : list Agent.Gps :=
  [ Agent.Build_Gps 30.5%float 50.5%float;
    Agent.Build_Gps 30.25%float 50.25%float;
    Agent.Build_Gps 30.125%float 50.125%float;
    Agent.Build_Gps 30.75%float 50.75%float;
    Agent.Build_Gps 30%float 50%float ].

Definition parking_rows : list Agent.Parking :=
  [ Agent.Build_Parking 10 (Agent.Build_Gps 30.5%float 50.5%float);
    Agent.Build_Parking 0 (Agent.Build_Gps 30.25%float 50.25%float);
    Agent.Build_Parking 4 (Agent.Build_Gps 30.125%float 50.125%float);
    Agent.Build_Parking 7 (Agent.Build_Gps 30.75%float 50.75%float) ].

(** A clock that advances by one second per reading. *)
Definition clock (k : nat) : datetime :=
  {| year := 2024; month := 3; day := 9;
     hour := 12; minute := 0; second := Z.of_nat k; microsecond := 0;
     utcoffset := None |}.

(** Decimal integers with an optional minus sign, as far as the sample
    files need [int]. *)
Fixpoint digits (s : string) (n : Z) : option Z :=
  match s with
  | EmptyString => Some n
  | String c rest =>
      let d := Z.of_nat (Ascii.nat_of_ascii c) - 48 in
      if (0 <=? d) && (d <=? 9) then digits rest (10 * n + d) else None
  end.

Definition sample_int (s : string) : option Z :=
  match s with
  | EmptyString => None
  | String c rest =>
      if Nat.eqb (Ascii.nat_of_ascii c) 45 then
        match rest with
        | EmptyString => None
        | String _ _ => Z.opp <$> digits rest 0
        end
      else digits s 0
  end.

(** [datetime.isoformat()]: date and time with zero-padded fields, the
    microseconds when they are not zero, and the offset of an aware
    value as hours and minutes. *)
Fixpoint zeros (n : nat) : string :=
  match n with
  | O => ""
  | S n' => "0" +:+ zeros n'
  end.

Definition pad (width : nat) (n : Z) : string :=
  zeros (width - String.length (pretty n)) +:+ pretty n.

Definition sample_isoformat (t : datetime) : string :=
  pad 4 (year t) +:+ "-" +:+ pad 2 (month t) +:+ "-" +:+ pad 2 (day t)
  +:+ "T" +:+ pad 2 (hour t) +:+ ":" +:+ pad 2 (minute t)
  +:+ ":" +:+ pad 2 (second t)
  +:+ (if microsecond t =? 0 then "" else "." +:+ pad 6 (microsecond t))
  +:+ match utcoffset t with
      | None => ""
      | Some m =>
          (if m <? 0 then "-" else "+")
          +:+ pad 2 (Z.abs m / 60) +:+ ":" +:+ pad 2 (Z.abs m mod 60)
      end.

(** What a [DateTime] column without time zone, as declared at line 45,
    holds for such a text: the date and the time of day, and no offset. *)
Definition field (s : string) (start len : nat) : Z :=
  default 0 (digits (String.substring start len s) 0).

Definition naive_column (s : string) : datetime :=
  {| year := field s 0 4; month := field s 5 2; day := field s 8 2;
     hour := field s 11 2; minute := field s 14 2; second := field s 17 2;
     microsecond :=
       if String.eqb (String.substring 19 1 s) "." then field s 20 6 else 0;
     utcoffset := None |}.

(** An engine with that rendering and that column. *)
Definition naive_engine : Externals :=
  {| isoformat := sample_isoformat;
     json_dumps := fun data => data;
     column_datetime := naive_column;
     insert_error := insert_error (Externals := engine);
     column_of_datetime := column_of_datetime (Externals := engine);
     update_error := update_error (Externals := engine) |}.

(** Noon of the same day for a sender two hours ahead of UTC. *)
Definition noon_plus_two : datetime :=
  {| year := 2024; month := 3; day := 9;
     hour := 12; minute := 0; second := 0; microsecond := 0;
     utcoffset := Some 120 |}.

Definition record_at (t : datetime) : ProcessedAgentData :=
  {| road_state := "flat";
     agent_data :=
       {| user_id := 7;
          accelerometer := {| x := 1%float; y := 5%float; z := 16500%float |};
          gps := {| latitude := 50.5%float; longitude := 30.25%float |};
          timestamp := t |} |}.

(** The two decimal fractions of the sample GPS file. *)
Definition sample_float (s : string) : option float :=
  if String.eqb s "30.5" then Some 30.5%float
  else if String.eqb s "50.5" then Some 50.5%float
  else None.

Definition sample_unpack_error (n : nat) (row : list string) : string :=
  "cannot unpack the row into " +:+ pretty n +:+ " numbers".

(** An accelerometer file whose second data row has a field that is not
    a number, and a GPS file with one good row. *)
Definition accelerometer_file : Agent.CsvFile :=
  Agent.Build_CsvFile ["x"; "y"; "z"]
    [ ["1"; "4"; "16500"]; ["2"; "-120"; "n/a"]; ["3"; "130"; "16300"] ].

Definition gps_file : Agent.CsvFile :=
  Agent.Build_CsvFile ["longitude"; "latitude"] [ ["30.5"; "50.5"] ].

End Sample.

(* ===================================================================== *)
(** * Properties of the classifier                                        *)
(* ===================================================================== *)

Section EdgeFacts.
Import Edge.

Lemma new_spec (v : ProcessedAgentData) (h : Heap) :
  new v h = (length h, h ++ [v]).
Proof. reflexivity. Qed.

Lemma set_road_state_last (h : Heap) (v : ProcessedAgentData) (s : string) :
  set_road_state (length h) s (h ++ [v])
  = (tt, h ++ [ {| road_state := s; agent_data := agent_data v |} ]).
Proof.
  unfold set_road_state. f_equal.
  induction h as [|w h IH]; simpl; [reflexivity|].
  f_equal. exact IH.
Qed.

(** The call appends one object to the heap: the one it returns. *)
Lemma process_agent_data_run (a : AgentData) (h : Heap) :
  process_agent_data a h
  = (length h, h ++ [ {| road_state := label_of a; agent_data := a |} ]).
Proof.
  unfold process_agent_data, bind, ret, label_of.
  rewrite new_spec.
  destruct (y (accelerometer a) <? -100);
    [|destruct (y (accelerometer a) >? 100)];
    rewrite set_road_state_last; reflexivity.
Qed.

Lemma lookup_last {A : Type} (h : list A) (v : A) :
  (h ++ [v]) !! length h = Some v.
Proof.
  rewrite lookup_app_r by lia.
  by rewrite Nat.sub_diag.
Qed.

Lemma returned_run (a : AgentData) (h : Heap) :
  returned a h = Some {| road_state := label_of a; agent_data := a |}.
Proof.
  unfold returned. rewrite process_agent_data_run. apply lookup_last.
Qed.

Lemma label_of_cases (a : AgentData) :
  (label_of a = "pit" /\ y (accelerometer a) < -100) \/
  (label_of a = "hill" /\ 100 < y (accelerometer a)) \/
  (label_of a = "flat" /\ -100 <= y (accelerometer a) <= 100).
Proof.
  unfold label_of.
  destruct (Z.ltb_spec (y (accelerometer a)) (-100)) as [Hlt|Hge]; [by left|].
  right.
  destruct (y (accelerometer a) >? 100) eqn:Hgt.
  - left. split; [reflexivity|]. by apply Z.gtb_lt in Hgt.
  - right. split; [reflexivity|]. split; [exact Hge|].
    destruct (Z.le_gt_cases (y (accelerometer a)) 100) as [Hle|Hlt]; [exact Hle|].
    apply Z.gtb_lt in Hlt. congruence.
Qed.

(** C4. For every input and every heap, the object [process_agent_data]
    returns carries the input and exactly one of the labels pit, hill and
    flat, chosen by the sign tests on [y] with exclusive thresholds, and
    never unknown; the result does not depend on the heap or on earlier
    calls, so equal inputs give equal outputs; and [y = -100] and
    [y = 100] both give flat. *)
Theorem process_agent_data_classifies (a : AgentData) (h : Heap) :
  (exists v : ProcessedAgentData,
      returned a h = Some v /\ agent_data v = a /\
      ((road_state v = "pit" /\ y (accelerometer a) < -100) \/
       (road_state v = "hill" /\ 100 < y (accelerometer a)) \/
       (road_state v = "flat" /\ -100 <= y (accelerometer a) <= 100)) /\
      road_state v <> "unknown") /\
  (forall (a' : AgentData) (h' : Heap), a = a' -> returned a h = returned a' h') /\
  (y (accelerometer a) = -100 \/ y (accelerometer a) = 100 ->
   returned a h = Some {| road_state := "flat"; agent_data := a |}).
Proof.
  split; [|split].
  - exists {| road_state := label_of a; agent_data := a |}.
    split; [apply returned_run|]. split; [reflexivity|]. simpl.
    split; [apply label_of_cases|].
    destruct (label_of_cases a) as [[-> _]|[[-> _]|[-> _]]]; discriminate.
  - intros a' h' <-. by rewrite !returned_run.
  - intros Hy. rewrite returned_run. unfold label_of.
    destruct Hy as [-> | ->]; reflexivity.
Qed.

(** The boundary reading [y = 100] on an empty heap. *)
Lemma process_agent_data_classifies_witness :
  let a := {| user_id := 7;
              accelerometer := {| x := 1; y := 100; z := 16500 |};
              gps := {| latitude := 50.5%float; longitude := 30.25%float |};
              timestamp := {| year := 2024; month := 3; day := 9;
                              hour := 12; minute := 0; second := 0;
                              microsecond := 0; utcoffset := None |} |} in
  returned a [] = Some {| road_state := "flat"; agent_data := a |}.
Proof.
  intros a.
  apply (proj2 (proj2 (process_agent_data_classifies a []))).
  right. reflexivity.
Defined.

Lemma process_agent_data_steps_run (a : AgentData) (h : Heap) :
  process_agent_data_steps a h
  = (length h,
     h ++ [ {| road_state := label_of a; agent_data := a |} ],
     [ h ++ [ {| road_state := "unknown"; agent_data := a |} ];
       h ++ [ {| road_state := label_of a; agent_data := a |} ] ]).
Proof.
  unfold process_agent_data_steps, tbind, tret, step, label_of.
  rewrite new_spec.
  destruct (y (accelerometer a) <? -100);
    [|destruct (y (accelerometer a) >? 100)];
    rewrite set_road_state_last; reflexivity.
Qed.

Lemma process_all_run (inputs : list AgentData) (h : Heap) :
  process_all inputs h
  = (seq (length h) (length inputs),
     h ++ map (fun a => {| road_state := label_of a; agent_data := a |}) inputs).
Proof.
  revert h. induction inputs as [|a rest IH]; intros h; simpl.
  - unfold ret. by rewrite app_nil_r.
  - unfold bind, ret. rewrite process_agent_data_run, IH.
    rewrite length_app, <- app_assoc. simpl.
    by rewrite Nat.add_1_r.
Qed.




End EdgeFacts.

(* ===================================================================== *)
(** * Properties of the aggregation                                       *)
(* ===================================================================== *)

Section AgentFacts.
Import Agent.

Variable USER_ID : Z.
Variable now : nat -> datetime.

Lemma zip_length {A B C : Type} (a : list A) (b : list B) (c : list C) :
  length (zip a b c) = (length a `min` (length b `min` length c))%nat.
Proof.
  revert b c. induction a as [|x a IH]; intros [|y b] [|z c]; simpl; try lia.
  rewrite IH. lia.
Qed.

Lemma zip_lookup {A B C : Type} (a : list A) (b : list B) (c : list C)
    (i : nat) (t : A * B * C) :
  zip a b c !! i = Some t <->
  a !! i = Some t.1.1 /\ b !! i = Some t.1.2 /\ c !! i = Some t.2.
Proof.
  revert b c i. induction a as [|x a IH]; intros [|y b] [|z c] i;
    try (simpl; split; [discriminate | intros (H1 & H2 & H3); discriminate]).
  destruct i as [|i]; simpl.
  - destruct t as [[t1 t2] t3]; simpl. split.
    + intros [= <- <- <-]. auto.
    + intros ([= <-] & [= <-] & [= <-]). reflexivity.
  - apply IH.
Qed.

Lemma read_loop_run (triples : list (Accelerometer * Gps * Parking))
    (aggregated_data : list AggregatedData) (k : nat) :
  read_loop USER_ID now triples aggregated_data k
  = (aggregated_data ++ imap (aggregate USER_ID now k) triples, (k + length triples)%nat).
Proof.
  revert aggregated_data k.
  induction triples as [|[[a g] p] rest IH]; intros acc k; simpl.
  - rewrite app_nil_r. f_equal. lia.
  - rewrite IH. rewrite <- app_assoc. simpl. f_equal.
    + f_equal. unfold aggregate at 2. simpl. rewrite Nat.add_0_r. f_equal.
      apply imap_ext. intros i t _. unfold aggregate, compose.
      f_equal. f_equal. lia.
    + lia.
Qed.

(** C7. For accelerometer, GPS and parking sequences of any lengths,
    [read] raises nothing and returns as many records as the shortest
    sequence has entries; the record at index [i] is built from the
    entries at index [i] of the three sequences, with the configured user
    id and the reading of the clock taken for it during the aggregation;
    the entries beyond the shortest sequence do not appear. *)
Theorem read_aggregates_by_index (accelerometer_data : list Accelerometer)
    (gps_data : list Gps) (parking_data : list Parking) (k : nat) :
  exists aggregated_data : list AggregatedData,
    read USER_ID now (Return accelerometer_data) (Return gps_data)
      (Return parking_data) k
    = (Return aggregated_data, (k + length aggregated_data)%nat) /\
    length aggregated_data
    = (length accelerometer_data `min`
         (length gps_data `min` length parking_data))%nat /\
    forall i : nat,
      (i < length aggregated_data)%nat ->
      exists (a : Accelerometer) (g : Gps) (p : Parking),
        accelerometer_data !! i = Some a /\
        gps_data !! i = Some g /\
        parking_data !! i = Some p /\
        aggregated_data !! i
        = Some {| accelerometer := a; gps := g; parking := p;
                  timestamp := now (k + i); user_id := USER_ID |}.
Proof.
  exists (imap (aggregate USER_ID now k) (zip accelerometer_data gps_data parking_data)).
  unfold read. rewrite read_loop_run. simpl.
  rewrite length_imap, zip_length.
  split; [reflexivity|]. split; [reflexivity|].
  intros i Hi. rewrite <- zip_length in Hi.
  destruct (lookup_lt_is_Some_2 _ _ Hi) as [[[a g] p] Ht].
  exists a, g, p.
  pose proof (proj1 (zip_lookup _ _ _ _ _) Ht) as (Ha & Hg & Hp).
  repeat split; try assumption.
  rewrite list_lookup_imap, Ht. reflexivity.
Qed.

End AgentFacts.

(** Sequences of lengths 3, 5 and 4 give three records; the last one is
    built from the third entry of each sequence. *)
Lemma read_aggregates_by_index_witness :
  exists aggregated_data : list Agent.AggregatedData,
    Agent.read 1 Sample.clock (Return Sample.accelerometer_rows)
      (Return Sample.gps_rows) (Return Sample.parking_rows) 0
    = (Return aggregated_data, 3%nat) /\
    length aggregated_data = 3%nat /\
    aggregated_data !! 2%nat
    = Some (Agent.Build_AggregatedData
              (Agent.Build_Accelerometer 3 130 16300)
              (Agent.Build_Gps 30.125%float 50.125%float)
              (Agent.Build_Parking 4 (Agent.Build_Gps 30.125%float 50.125%float))
              (Sample.clock 2) 1).
Proof.
  destruct (read_aggregates_by_index 1 Sample.clock Sample.accelerometer_rows
              Sample.gps_rows Sample.parking_rows 0)
    as (out & Hread & Hlen & Hidx).
  exists out. simpl in Hlen. rewrite Hlen in Hread.
  split; [exact Hread|]. split; [exact Hlen|].
  destruct (Hidx 2%nat) as (a & g & p & Ha & Hg & Hp & Hout);
    [rewrite Hlen; lia|].
  injection Ha as <-. injection Hg as <-. injection Hp as <-.
  exact Hout.
Defined.

(* ===================================================================== *)
(** * Properties of the store handlers                                    *)
(* ===================================================================== *)

Section StoreFacts.
Import Store.
Context `{Externals}.

Lemma select_first_absent (i : Z) (d : Database) :
  absent i d -> select_first d i = None.
Proof.
  unfold absent, select_first. intros Habs.
  induction (rows d) as [|r l IH]; simpl; [reflexivity|].
  destruct (Z.eqb_spec (id r) i) as [Heq|Hne].
  - exfalso. apply (Habs r); [left | exact Heq].
  - apply IH. intros r' Hr'. apply Habs. by right.
Qed.

Lemma select_first_Some (i : Z) (d : Database) (r : ProcessedAgentDataInDB) :
  select_first d i = Some r -> r ∈ rows d /\ id r = i.
Proof.
  unfold select_first. intros Hfind.
  apply List.find_some in Hfind as [Hin Heq].
  split; [by apply list_elem_of_In | by apply Z.eqb_eq].
Qed.

Lemma select_first_appended (i : Z) (l : list ProcessedAgentDataInDB)
    (n : Z) (r : ProcessedAgentDataInDB) :
  (forall r', r' ∈ l -> id r' <> i) -> id r = i ->
  select_first {| rows := l ++ [r]; next_id := n |} i = Some r.
Proof.
  unfold select_first; simpl. intros Habs Hid.
  induction l as [|r' l IH]; simpl.
  - by rewrite (proj2 (Z.eqb_eq _ _) Hid).
  - destruct (Z.eqb_spec (id r') i) as [Heq|Hne].
    + exfalso. apply (Habs r'); [left | exact Heq].
    + apply IH. intros r'' Hr''. apply Habs. by right.
Qed.

(** C10. For every state of the store [list_processed_agent_data]
    returns all the rows of the table: [.all()] yields a list and never
    [None], so the branch raising 404 is never taken and no exception is
    raised; on an empty table the handler returns the empty list. *)
Theorem list_processed_agent_data_total (app : App) :
  select_all (db app) = Some (rows (db app)) /\
  list_processed_agent_data app = (Return (rows (db app)), app) /\
  (forall e : Exception, fst (list_processed_agent_data app) <> Raise e) /\
  fst (list_processed_agent_data
         (with_db app {| rows := []; next_id := next_id (db app) |}))
  = Return [].
Proof.
  repeat split; try reflexivity.
  intros e. discriminate.
Qed.

(** C9. When no row has the id asked for, [read], [update] and [delete]
    each raise the 404 error naming that id, and each leaves the whole
    state of the service, the table included, exactly as it was. *)
Theorem missing_id_not_found (i : Z) (data : ProcessedAgentData) (app : App) :
  absent i (db app) ->
  read_processed_agent_data i app
  = (Raise (HTTPException 404
              ("ProcessedAgentData with id:" +:+ pretty i +:+ " not found")),
     app) /\
  update_processed_agent_data i data app
  = (Raise (HTTPException 404
              ("ProcessedAgentData with id:" +:+ pretty i +:+ " not found")),
     app) /\
  delete_processed_agent_data i app
  = (Raise (HTTPException 404
              ("ProcessedAgentData with id:" +:+ pretty i +:+ " not found")),
     app).
Proof.
  intros Habs.
  unfold read_processed_agent_data, update_processed_agent_data,
    delete_processed_agent_data.
  rewrite (select_first_absent i (db app) Habs).
  repeat split.
Qed.

(** ** Batch create *)

Lemma execute_insert_inl (d d' : Database) (v : InsertValues) :
  execute_insert d v = inl d' ->
  insert_error d v = None /\
  d' = {| rows := rows d ++ [row_of_values (next_id d) v];
          next_id := next_id d + 1 |}.
Proof.
  unfold execute_insert. destruct (insert_error d v); [discriminate|].
  intros [= <-]. split; reflexivity.
Qed.

Lemma execute_insert_inr (d : Database) (v : InsertValues) (message : string) :
  execute_insert d v = inr message -> insert_error d v = Some message.
Proof.
  unfold execute_insert. destruct (insert_error d v); [|discriminate].
  by intros [= <-].
Qed.

(** The loop touches the database only: the registry, the connections
    and the messages sent are what they were. *)
Lemma insert_loop_frame (data : list ProcessedAgentData)
    (inserted_records : list InsertValues) (app : App) :
  subscriptions (snd (insert_loop data inserted_records app)) = subscriptions app /\
  closed (snd (insert_loop data inserted_records app)) = closed app /\
  sent (snd (insert_loop data inserted_records app)) = sent app.
Proof.
  revert inserted_records app.
  induction data as [|item rest IH]; intros acc app; simpl; [auto|].
  destruct (execute_insert (db app) (insert_values_of item)) as [d|message];
    simpl; [|auto].
  destruct (IH (acc ++ [insert_values_of item]) (with_db app d))
    as (Hs & Hc & Ht).
  rewrite Hs, Hc, Ht. auto.
Qed.

(** A loop that runs to its end has appended one row per item. *)
Lemma insert_loop_Return (data : list ProcessedAgentData)
    (inserted_records l : list InsertValues) (app app' : App) :
  insert_loop data inserted_records app = (Return l, app') ->
  l = inserted_records ++ map insert_values_of data /\
  length (rows (db app')) = (length (rows (db app)) + length data)%nat.
Proof.
  revert inserted_records app.
  induction data as [|item rest IH]; intros acc app; simpl.
  - intros [= <- <-]. rewrite app_nil_r. split; [reflexivity | lia].
  - destruct (execute_insert (db app) (insert_values_of item)) as [d|message]
      eqn:Hins; [|discriminate].
    intros Hloop. apply IH in Hloop as [-> Hlen].
    apply execute_insert_inl in Hins as [_ ->].
    simpl in Hlen. rewrite length_app in Hlen. simpl in Hlen.
    rewrite <- app_assoc. split; [reflexivity | lia].
Qed.

(** A loop that raises stopped at the first item the engine rejected:
    the items before it are committed, it and the later ones are not. *)
Lemma insert_loop_Raise (data : list ProcessedAgentData)
    (inserted_records : list InsertValues) (e : Exception) (app app' : App) :
  insert_loop data inserted_records app = (Raise e, app') ->
  exists (before : list ProcessedAgentData) (item : ProcessedAgentData)
         (after : list ProcessedAgentData) (message : string),
    data = before ++ item :: after /\
    insert_error (db app') (insert_values_of item) = Some message /\
    e = HTTPException 400 ("Error inserting data: " +:+ message) /\
    length (rows (db app')) = (length (rows (db app)) + length before)%nat.
Proof.
  revert inserted_records app.
  induction data as [|item rest IH]; intros acc app; simpl; [discriminate|].
  destruct (execute_insert (db app) (insert_values_of item)) as [d|message]
    eqn:Hins.
  - intros Hloop.
    apply IH in Hloop as (before & item' & after & message & -> & Herr & -> & Hlen).
    apply execute_insert_inl in Hins as [_ ->].
    simpl in Hlen. rewrite length_app in Hlen. simpl in Hlen.
    exists (item :: before), item', after, message.
    repeat split; [assumption | simpl; lia].
  - intros [= <- <-].
    exists [], item, rest, message.
    repeat split; [by apply execute_insert_inr | simpl; lia].
Qed.

Lemma create_frame (data : list ProcessedAgentData) (app : App) :
  subscriptions (snd (create_processed_agent_data data app)) = subscriptions app /\
  closed (snd (create_processed_agent_data data app)) = closed app /\
  sent (snd (create_processed_agent_data data app)) = sent app.
Proof.
  unfold create_processed_agent_data.
  pose proof (insert_loop_frame data [] app) as Hframe.
  destruct (insert_loop data [] app) as [[l|e] app']; simpl in *;
    [destruct l|]; exact Hframe.
Qed.

(** C2, amended. The result of a batch create is a single outcome.  When
    every record is stored the handler returns the values inserted for
    the first record only, without an id, although one row per record
    has been added; otherwise it raises one error of status 400: for an
    empty batch, or for the first record the engine rejects, the records
    before it staying committed. *)
Theorem create_reports_first_only (data : list ProcessedAgentData) (app : App) :
  match create_processed_agent_data data app with
  | (Return first, app') =>
      exists (item : ProcessedAgentData) (rest : list ProcessedAgentData),
        data = item :: rest /\
        first = insert_values_of item /\
        length (rows (db app')) = (length (rows (db app)) + length data)%nat
  | (Raise e, app') =>
      (data = [] /\ e = HTTPException 400 "No data inserted" /\ app' = app) \/
      (exists (before : list ProcessedAgentData) (item : ProcessedAgentData)
              (after : list ProcessedAgentData) (message : string),
          data = before ++ item :: after /\
          insert_error (db app') (insert_values_of item) = Some message /\
          e = HTTPException 400 ("Error inserting data: " +:+ message) /\
          length (rows (db app')) = (length (rows (db app)) + length before)%nat)
  end.
Proof.
  destruct data as [|item rest].
  { simpl. left. repeat split. }
  unfold create_processed_agent_data.
  destruct (insert_loop (item :: rest) [] app) as [[l|e] app'] eqn:Hloop.
  - apply insert_loop_Return in Hloop as [-> Hlen]. simpl.
    exists item, rest. repeat split. exact Hlen.
  - right. by apply insert_loop_Raise in Hloop.
Qed.


(** The handlers keep the ids below the sequence. *)
Lemma execute_insert_ids (d d' : Database) (v : InsertValues) :
  ids_below_sequence d -> execute_insert d v = inl d' -> ids_below_sequence d'.
Proof.
  intros Hids Hins. apply execute_insert_inl in Hins as [_ ->].
  intros r'; simpl. rewrite elem_of_app, list_elem_of_singleton.
  intros [Hr' | ->]; [apply Hids in Hr'; lia | simpl; lia].
Qed.

Lemma insert_loop_ids (data : list ProcessedAgentData)
    (inserted_records : list InsertValues) (app : App) :
  ids_below_sequence (db app) ->
  ids_below_sequence (db (snd (insert_loop data inserted_records app))).
Proof.
  revert inserted_records app.
  induction data as [|item rest IH]; intros acc app Hids; simpl; [exact Hids|].
  destruct (execute_insert (db app) (insert_values_of item)) as [d|message]
    eqn:Hins; simpl; [|exact Hids].
  apply IH. simpl. by eapply execute_insert_ids.
Qed.

Lemma create_ids (data : list ProcessedAgentData) (app : App) :
  ids_below_sequence (db app) ->
  ids_below_sequence (db (snd (create_processed_agent_data data app))).
Proof.
  intros Hids. unfold create_processed_agent_data.
  pose proof (insert_loop_ids data [] app Hids) as Hloop.
  destruct (insert_loop data [] app) as [[l|e] app']; simpl in *;
    [destruct l|]; exact Hloop.
Qed.

Lemma update_ids (i : Z) (data : ProcessedAgentData) (app : App) :
  ids_below_sequence (db app) ->
  ids_below_sequence (db (snd (update_processed_agent_data i data app))).
Proof.
  intros Hids. unfold update_processed_agent_data, execute_update.
  destruct (select_first (db app) i); simpl; [|exact Hids].
  destruct (update_error i data); simpl; [exact Hids|].
  intros r' Hr'.
  apply list_elem_of_In, List.in_map_iff in Hr' as (r0 & <- & Hr0).
  apply list_elem_of_In, Hids in Hr0. by destruct (id r0 =? i).
Qed.

Lemma delete_ids (i : Z) (app : App) :
  ids_below_sequence (db app) ->
  ids_below_sequence (db (snd (delete_processed_agent_data i app))).
Proof.
  intros Hids. unfold delete_processed_agent_data.
  destruct (select_first (db app) i); simpl; [|exact Hids].
  intros r' Hr'. apply list_elem_of_In, List.filter_In in Hr' as [Hr' _].
  by apply Hids, list_elem_of_In.
Qed.

(** ** The subscription registry *)

Lemma accept_subscriptions (websocket : WebSocket) (user_id : Z) (app : App) :
  subscriptions (websocket_endpoint_accept websocket user_id app)
  = <[user_id := default ∅ (subscriptions app !! user_id) ∪ {[websocket]}]>
      (subscriptions app).
Proof.
  unfold websocket_endpoint_accept; simpl.
  destruct (subscriptions app !! user_id) as [s|] eqn:Hs; simpl.
  - apply map_eq; intros j.
    destruct (decide (user_id = j)) as [<-|Hne].
    + by rewrite lookup_alter_eq, lookup_insert_eq, Hs.
    + by rewrite lookup_alter_ne, lookup_insert_ne.
  - by rewrite alter_insert_eq.
Qed.

Lemma accept_run (websocket : WebSocket) (user_id : Z) (app : App) :
  websocket_endpoint_accept websocket user_id app
  = with_subscriptions app
      (<[user_id := default ∅ (subscriptions app !! user_id) ∪ {[websocket]}]>
         (subscriptions app)).
Proof.
  rewrite <- accept_subscriptions. reflexivity.
Qed.

Lemma with_sent_id (app : App) : with_sent app (sent app) = app.
Proof. by destruct app. Qed.

Lemma send_loop_open (websockets : list WebSocket) (message : string) (app : App) :
  (forall ws : WebSocket, ws ∈ websockets -> ws ∉ closed app) ->
  send_loop websockets message app
  = (Return tt,
     with_sent app (sent app ++ map (fun ws => (ws, message)) websockets)).
Proof.
  revert app. induction websockets as [|ws rest IH]; intros app Hopen; simpl.
  - by rewrite app_nil_r, with_sent_id.
  - destruct (decide (ws ∈ closed app)) as [Hin|_].
    + exfalso. apply (Hopen ws); [left | exact Hin].
    + rewrite IH.
      * unfold with_sent; simpl. by rewrite <- app_assoc.
      * intros ws' Hws'. simpl. apply Hopen. by right.
Qed.

Lemma send_loop_stops (before : list WebSocket) (bad : WebSocket)
    (after : list WebSocket) (message : string) (app : App) :
  (forall ws : WebSocket, ws ∈ before -> ws ∉ closed app) ->
  bad ∈ closed app ->
  send_loop (before ++ bad :: after) message app
  = (Raise WebSocketDisconnect,
     with_sent app (sent app ++ map (fun ws => (ws, message)) before)).
Proof.
  revert app. induction before as [|ws rest IH]; intros app Hopen Hbad; simpl.
  - destruct (decide (bad ∈ closed app)) as [_|Hout]; [|contradiction].
    by rewrite app_nil_r, with_sent_id.
  - destruct (decide (ws ∈ closed app)) as [Hin|_].
    + exfalso. apply (Hopen ws); [left | exact Hin].
    + rewrite IH.
      * unfold with_sent; simpl. by rewrite <- app_assoc.
      * intros ws' Hws'. simpl. apply Hopen. by right.
      * exact Hbad.
Qed.

Lemma send_loop_frame (websockets : list WebSocket) (message : string) (app : App) :
  db (snd (send_loop websockets message app)) = db app /\
  subscriptions (snd (send_loop websockets message app)) = subscriptions app /\
  closed (snd (send_loop websockets message app)) = closed app.
Proof.
  revert app. induction websockets as [|ws rest IH]; intros app; simpl; [auto|].
  destruct (decide (ws ∈ closed app)); simpl; [auto|].
  destruct (IH (with_sent app (sent app ++ [(ws, message)]))) as (Hd & Hs & Hc).
  rewrite Hd, Hs, Hc. auto.
Qed.

Lemma send_data_to_subscribers_frame (user_id : Z) (data : string) (app : App) :
  db (snd (send_data_to_subscribers user_id data app)) = db app /\
  subscriptions (snd (send_data_to_subscribers user_id data app))
  = subscriptions app /\
  closed (snd (send_data_to_subscribers user_id data app)) = closed app.
Proof.
  unfold send_data_to_subscribers.
  destruct (subscriptions app !! user_id); [apply send_loop_frame | auto].
Qed.

(** C5, amended. A publish never changes the registry, so a listener
    whose send fails stays subscribed.  The listeners are served in the
    iteration order of the set: when all connections are open each gets
    the record once; at the first listener whose send fails the publish
    raises, the listeners before it have got the record, and neither it
    nor the listeners after it get anything. *)
Theorem send_data_to_subscribers_stops_at_failure (user_id : Z) (data : string)
    (app : App) (s : gset WebSocket) :
  subscriptions app !! user_id = Some s ->
  subscriptions (snd (send_data_to_subscribers user_id data app))
  = subscriptions app /\
  ((forall ws : WebSocket, ws ∈ s -> ws ∉ closed app) ->
   send_data_to_subscribers user_id data app
   = (Return tt,
      with_sent app
        (sent app ++ map (fun ws => (ws, json_dumps data)) (elements s)))) /\
  (forall (before : list WebSocket) (bad : WebSocket) (after : list WebSocket),
      elements s = before ++ bad :: after ->
      (forall ws : WebSocket, ws ∈ before -> ws ∉ closed app) ->
      bad ∈ closed app ->
      send_data_to_subscribers user_id data app
      = (Raise WebSocketDisconnect,
         with_sent app
           (sent app ++ map (fun ws => (ws, json_dumps data)) before))).
Proof.
  intros Hs.
  split; [apply send_data_to_subscribers_frame|].
  unfold send_data_to_subscribers. rewrite Hs. split.
  - intros Hopen. apply send_loop_open.
    intros ws Hws. apply Hopen. by apply elem_of_elements.
  - intros before bad after -> Hopen Hbad. by apply send_loop_stops.
Qed.

(** The three operations on the registry, state by state: adding a
    listener a second time changes nothing; removing one that is in the
    set of its user succeeds and leaves the set without it; the
    subscript and [set.remove] of line 114 raise [KeyError] otherwise;
    and a handler that adds and then removes its listener ends
    normally. *)
Lemma registry_set_semantics (websocket : WebSocket) (user_id : Z) (app : App) :
  websocket_endpoint_accept websocket user_id
    (websocket_endpoint_accept websocket user_id app)
  = websocket_endpoint_accept websocket user_id app /\
  (forall s : gset WebSocket,
      subscriptions app !! user_id = Some s -> websocket ∈ s ->
      websocket_endpoint_disconnect websocket user_id app
      = (Return tt,
         with_subscriptions app
           (<[user_id := s ∖ {[websocket]}]> (subscriptions app))) /\
      websocket ∉ s ∖ {[websocket]}) /\
  ((forall s : gset WebSocket,
       subscriptions app !! user_id = Some s -> websocket ∉ s) ->
   websocket_endpoint_disconnect websocket user_id app = (Raise KeyError, app)) /\
  fst (websocket_endpoint websocket user_id app) = Return tt.
Proof.
  split; [|split; [|split]].
  - rewrite (accept_run websocket user_id (websocket_endpoint_accept _ _ _)).
    rewrite accept_run. unfold with_subscriptions; simpl. f_equal.
    rewrite lookup_insert_eq, insert_insert_eq. simpl. f_equal.
    by rewrite <- (assoc_L (∪)), (idemp_L (∪)).
  - intros s Hs Hin.
    split; [|rewrite elem_of_difference, elem_of_singleton; tauto].
    unfold websocket_endpoint_disconnect. rewrite Hs.
    by destruct (decide (websocket ∈ s)).
  - intros Hout. unfold websocket_endpoint_disconnect.
    destruct (subscriptions app !! user_id) as [s|] eqn:Hs; [|reflexivity].
    destruct (decide (websocket ∈ s)) as [Hin|_]; [|reflexivity].
    exfalso. by apply (Hout s).
  - unfold websocket_endpoint, websocket_endpoint_disconnect.
    rewrite accept_subscriptions, lookup_insert_eq.
    destruct (decide (websocket ∈ default ∅ (subscriptions app !! user_id)
                                   ∪ {[websocket]})) as [_|Hout];
      [reflexivity|].
    exfalso. apply Hout, elem_of_union_r, elem_of_singleton. reflexivity.
Qed.

End StoreFacts.

(* ===================================================================== *)
(** * The theorems on concrete requests                                   *)
(* ===================================================================== *)

Section Scenarios.
Import Store Sample.

(** Membership in a concrete set, settled by evaluation. *)
Ltac by_evaluation := apply (bool_decide_unpack _); vm_compute; exact I.



(** Id 5 in a table that holds the ids 1 and 2. *)
Lemma missing_id_not_found_witness :
  absent 5 (db two_rows_app) /\
  read_processed_agent_data 5 two_rows_app
  = (Raise (HTTPException 404 "ProcessedAgentData with id:5 not found"),
     two_rows_app) /\
  update_processed_agent_data (H := engine) 5 (record 9 "pit") two_rows_app
  = (Raise (HTTPException 404 "ProcessedAgentData with id:5 not found"),
     two_rows_app) /\
  delete_processed_agent_data 5 two_rows_app
  = (Raise (HTTPException 404 "ProcessedAgentData with id:5 not found"),
     two_rows_app).
Proof.
  assert (Habs : absent 5 (db two_rows_app)).
  { intros r Hr. apply list_elem_of_In in Hr. simpl in Hr.
    destruct Hr as [<- | [<- | []]]; simpl; lia. }
  split; [exact Habs|].
  exact (missing_id_not_found (H := engine) 5 (record 9 "pit") two_rows_app Habs).
Defined.

(** C2, as stated, fails: a batch of one record and a batch of two give
    the same result, the values of the first record, so no enumeration
    of the outcomes can have one entry per record. *)
Lemma create_returns_one_outcome : ~ enumerates_every_record (H := engine).
Proof.
  intros [outcomes Hlen].
  pose proof (Hlen [record 7 "flat"] empty_app) as H1.
  pose proof (Hlen [record 7 "flat"; record 7 "pit"] empty_app) as H2.
  change (fst (create_processed_agent_data (H := engine)
                 [record 7 "flat"; record 7 "pit"] empty_app))
    with (fst (create_processed_agent_data (H := engine)
                 [record 7 "flat"] empty_app)) in H2.
  rewrite H1 in H2. discriminate H2.
Qed.

(** A batch of three whose second record the engine rejects: one error
    is reported, and the first record stays committed. *)
Lemma create_reports_first_only_witness :
  exists app' : App,
    create_processed_agent_data (H := engine)
      [record 7 "flat"; record 4294967296 "pit"; record 7 "hill"] empty_app
    = (Raise (HTTPException 400 "Error inserting data: integer out of range"),
       app') /\
    length (rows (db app')) = 1%nat.
Proof.
  pose proof (create_reports_first_only (H := engine)
                [record 7 "flat"; record 4294967296 "pit"; record 7 "hill"]
                empty_app) as Hspec.
  destruct (create_processed_agent_data (H := engine)
              [record 7 "flat"; record 4294967296 "pit"; record 7 "hill"]
              empty_app) as [[first|e] app'] eqn:Hrun.
  - vm_compute in Hrun. discriminate Hrun.
  - exists app'. vm_compute in Hrun. injection Hrun as <- <-.
    split; reflexivity.
Defined.

(** C1 on a batch of one record of user 7 while listener 1 is connected
    and subscribed to user 7: the record is stored under id 1 and the
    request succeeds, the listener is still subscribed and its connection
    is open, and nothing has been sent to it; a call of
    [send_data_to_subscribers] in that state would reach it. *)
Theorem create_does_not_publish :
  let result := create_processed_agent_data (H := engine)
                  [record 7 "flat"] listening_app in
  fst result = Return (insert_values_of (H := engine) (record 7 "flat")) /\
  rows (db (snd result))
  = [ row_of_values (H := engine) 1
        (insert_values_of (H := engine) (record 7 "flat")) ] /\
  subscriptions (snd result) !! 7 = Some {[ 1%nat ]} /\
  closed (snd result) = ∅ /\
  sent (snd result) = [] /\
  sent (snd (send_data_to_subscribers (H := engine) 7 "stored" (snd result)))
  = [ (1%nat, "stored") ].
Proof.
  repeat split.
Qed.

(** C5, as stated, fails: with listeners 1 and 2 on user 42 and the
    connection of listener 2 broken, listener 2 is still subscribed
    after the publish. *)
Lemma failed_listener_stays_subscribed : ~ failure_isolated (H := engine).
Proof.
  intros Hiso.
  destruct (Hiso 42 "stored" fan_out_app {[ 1%nat; 2%nat ]} 2%nat)
    as [_ Hgone].
  - reflexivity.
  - vm_compute. lia.
  - by_evaluation.
  - by_evaluation.
  - apply (Hgone {[ 1%nat; 2%nat ]}).
    + destruct (send_data_to_subscribers_frame (H := engine)
                  42 "stored" fan_out_app) as (_ & -> & _).
      reflexivity.
    + by_evaluation.
Qed.

(** The publish to user 42: listener 2 comes first in the iteration and
    its send fails. *)
Lemma send_data_to_subscribers_stops_at_failure_witness :
  send_data_to_subscribers (H := engine) 42 "stored" fan_out_app
  = (Raise WebSocketDisconnect, fan_out_app) /\
  subscriptions fan_out_app !! 42 = Some ({[ 1%nat; 2%nat ]} : gset WebSocket).
Proof.
  destruct (send_data_to_subscribers_stops_at_failure (H := engine)
              42 "stored" fan_out_app {[ 1%nat; 2%nat ]} eq_refl)
    as (_ & _ & Hstop).
  split; [|reflexivity].
  rewrite (Hstop [] 2%nat [1%nat]).
  - reflexivity.
  - vm_compute. reflexivity.
  - intros ws Hws. by apply elem_of_nil in Hws.
  - by_evaluation.
Defined.

End Scenarios.

(* ===================================================================== *)
(** * Further properties of the table handlers                            *)
(* ===================================================================== *)

Section TableFacts.
Import Store.
Context `{Externals}.

Lemma with_db_id (app : App) : with_db app (db app) = app.
Proof. by destruct app. Qed.

Lemma select_first_unique (d : Database) (r : ProcessedAgentDataInDB) :
  unique_ids d -> r ∈ rows d -> select_first d (id r) = Some r.
Proof.
  unfold unique_ids, select_first.
  induction (rows d) as [|r' l IH]; simpl; intros Hnd Hin.
  - by apply elem_of_nil in Hin.
  - apply NoDup_cons in Hnd as [Hfresh Hnd].
    destruct (Z.eqb_spec (id r') (id r)) as [Heq|Hne].
    + apply elem_of_cons in Hin as [->|Hin]; [reflexivity|].
      exfalso. apply Hfresh. rewrite Heq.
      apply list_elem_of_In, List.in_map, list_elem_of_In, Hin.
    + apply elem_of_cons in Hin as [->|Hin]; [congruence|].
      by apply IH.
Qed.

Lemma select_first_is_Some (d : Database) (i : Z) (r0 : ProcessedAgentDataInDB) :
  r0 ∈ rows d -> id r0 = i ->
  exists r : ProcessedAgentDataInDB, select_first d i = Some r.
Proof.
  unfold select_first. intros Hin Hid.
  destruct (List.find (fun r => id r =? i) (rows d)) as [r|] eqn:Hfind; [eauto|].
  exfalso.
  assert (Hno : (id r0 =? i) = false).
  { apply (List.find_none _ _ Hfind r0). by apply list_elem_of_In. }
  apply Z.eqb_neq in Hno. contradiction.
Qed.

(** X1. Under the primary key, [read] finds exactly the row that carries
    the id: it returns [r] if and only if [r] is a row of the table with
    that id, and it never changes the state. *)
Theorem read_finds_the_row (i : Z) (r : ProcessedAgentDataInDB) (app : App) :
  unique_ids (db app) ->
  (read_processed_agent_data i app = (Return r, app) <->
   r ∈ rows (db app) /\ id r = i) /\
  snd (read_processed_agent_data i app) = app.
Proof.
  intros Huniq. unfold read_processed_agent_data. split.
  - split.
    + destruct (select_first (db app) i) as [r'|] eqn:Hsel; [|discriminate].
      intros [= ->]. by apply select_first_Some.
    + intros [Hin <-]. by rewrite (select_first_unique _ _ Huniq Hin).
  - by destruct (select_first (db app) i).
Qed.

(** ** Update *)

Lemma updated_table_rows (d : Database) (i : Z) (data : ProcessedAgentData) :
  rows (updated_table d i data)
  = map (fun r => if id r =? i then row_of_data (id r) data else r) (rows d).
Proof. reflexivity. Qed.

Lemma updated_table_ids (d : Database) (i : Z) (data : ProcessedAgentData) :
  map id (rows (updated_table d i data)) = map id (rows d).
Proof.
  rewrite updated_table_rows, List.map_map.
  apply List.map_ext. intros r. by destruct (id r =? i).
Qed.

Lemma select_first_update (d : Database) (i j : Z) (data : ProcessedAgentData) :
  select_first (updated_table d i data) j
  = if j =? i then (fun _ => row_of_data i data) <$> select_first d i
    else select_first d j.
Proof.
  unfold select_first. rewrite updated_table_rows.
  induction (rows d) as [|r l IH]; simpl.
  - by destruct (j =? i).
  - destruct (Z.eqb_spec (id r) i) as [Hri|Hri]; simpl.
    + destruct (Z.eqb_spec j i) as [->|Hji].
      * rewrite (proj2 (Z.eqb_eq _ _) Hri). simpl. by rewrite Hri.
      * rewrite (proj2 (Z.eqb_neq (id r) j)) by congruence. exact IH.
    + destruct (Z.eqb_spec j i) as [->|Hji].
      * rewrite (proj2 (Z.eqb_neq (id r) i)) by congruence. exact IH.
      * destruct (id r =? j); [reflexivity | exact IH].
Qed.

Lemma updated_table_twice (d : Database) (i : Z) (data : ProcessedAgentData) :
  updated_table (updated_table d i data) i data = updated_table d i data.
Proof.
  unfold updated_table; simpl. f_equal.
  rewrite List.map_map. apply List.map_ext. intros r.
  destruct (id r =? i) eqn:Hri; simpl; by rewrite Hri.
Qed.

(** X2. Updating an id that is in the table.  When the engine accepts
    the values, every column of the row is replaced by the fields of the
    request, the timestamp as the [DateTime] column holds it, and the id
    is kept: the handler returns that row and a later read of the id
    returns it too; the table has the same ids, the rows with another id
    are those it had, and the sequence, the registry and the messages
    sent are untouched.  When the engine rejects the values, its
    exception leaves the handler and nothing has changed. *)
Theorem update_replaces_every_field (i : Z) (data : ProcessedAgentData)
    (app : App) (r0 : ProcessedAgentDataInDB) :
  r0 ∈ rows (db app) -> id r0 = i ->
  (update_error i data = None ->
   exists app' : App,
     update_processed_agent_data i data app
     = (Return (Some (row_of_data i data)), app') /\
     read_processed_agent_data i app' = (Return (row_of_data i data), app') /\
     map id (rows (db app')) ≡ₚ map id (rows (db app)) /\
     (forall r : ProcessedAgentDataInDB,
         id r <> i -> r ∈ rows (db app') <-> r ∈ rows (db app)) /\
     next_id (db app') = next_id (db app) /\
     subscriptions app' = subscriptions app /\ sent app' = sent app) /\
  (forall message : string,
      update_error i data = Some message ->
      update_processed_agent_data i data app
      = (Raise (DatabaseError message), app)).
Proof.
  intros Hin Hid.
  destruct (select_first_is_Some (db app) i r0 Hin Hid) as [r Hsel].
  unfold update_processed_agent_data, execute_update. rewrite Hsel.
  split.
  - intros ->. exists (with_db app (updated_table (db app) i data)).
    unfold read_processed_agent_data.
    change (db (with_db app (updated_table (db app) i data)))
      with (updated_table (db app) i data).
    rewrite select_first_update, Z.eqb_refl, Hsel.
    split; [reflexivity|]. split; [reflexivity|].
    split; [by rewrite updated_table_ids|].
    split; [|auto].
    intros r' Hne. rewrite updated_table_rows.
    rewrite !list_elem_of_In, List.in_map_iff. split.
    + intros (r1 & Hr1 & Hin1).
      destruct (Z.eqb_spec (id r1) i) as [Heq|_]; [|by subst r1].
      subst r'. simpl in Hne. contradiction.
    + intros Hin'. exists r'. split; [|exact Hin'].
      by rewrite (proj2 (Z.eqb_neq (id r') i) Hne).
  - by intros message ->.
Qed.

(** X3. An update touches nothing but the rows of its id: for every
    other id a read gives the same result after the update as before,
    whether the update succeeded or raised 404; and repeating the same
    update changes neither the result nor the state. *)
Theorem update_leaves_other_ids (i : Z) (data : ProcessedAgentData) (app : App) :
  (forall j : Z,
      j <> i ->
      fst (read_processed_agent_data j
             (snd (update_processed_agent_data i data app)))
      = fst (read_processed_agent_data j app)) /\
  update_processed_agent_data i data
    (snd (update_processed_agent_data i data app))
  = update_processed_agent_data i data app.
Proof.
  split.
  - intros j Hji.
    unfold update_processed_agent_data, execute_update, read_processed_agent_data.
    destruct (select_first (db app) i) as [r|] eqn:Hsel; simpl; [|reflexivity].
    destruct (update_error i data); simpl; [reflexivity|].
    rewrite select_first_update, (proj2 (Z.eqb_neq j i) Hji).
    by destruct (select_first (db app) j).
  - unfold update_processed_agent_data, execute_update.
    destruct (select_first (db app) i) as [r|] eqn:Hsel; simpl.
    + destruct (update_error i data) eqn:Herr; simpl.
      * by rewrite Hsel.
      * rewrite select_first_update, Z.eqb_refl, Hsel. simpl.
        rewrite updated_table_twice.
        rewrite select_first_update, Z.eqb_refl, Hsel. reflexivity.
    + by rewrite Hsel.
Qed.

(** ** Delete *)

Lemma select_first_delete (d : Database) (i j : Z) :
  select_first (execute_delete d i) j
  = if j =? i then None else select_first d j.
Proof.
  unfold select_first, execute_delete; simpl.
  induction (rows d) as [|r l IH]; simpl.
  - by destruct (j =? i).
  - destruct (Z.eqb_spec (id r) i) as [Hri|Hri]; simpl.
    + destruct (Z.eqb_spec j i) as [->|Hji]; [exact IH|].
      rewrite (proj2 (Z.eqb_neq (id r) j)) by congruence. exact IH.
    + destruct (Z.eqb_spec j i) as [->|Hji].
      * rewrite (proj2 (Z.eqb_neq (id r) i)) by congruence. exact IH.
      * destruct (id r =? j); [reflexivity | exact IH].
Qed.

Lemma elem_of_execute_delete (d : Database) (i : Z) (r : ProcessedAgentDataInDB) :
  r ∈ rows (execute_delete d i) <-> r ∈ rows d /\ id r <> i.
Proof.
  unfold execute_delete; simpl.
  rewrite !list_elem_of_In, List.filter_In, Bool.negb_true_iff, Z.eqb_neq.
  reflexivity.
Qed.

Lemma execute_delete_sublist (d : Database) (i : Z) :
  rows (execute_delete d i) `sublist_of` rows d.
Proof.
  unfold execute_delete; simpl.
  induction (rows d) as [|r l IH]; simpl; [constructor|].
  destruct (negb (id r =? i)); by constructor.
Qed.

(** X4. Deleting an id that is in the table returns the row that a read
    of this id returned just before, and leaves no row with this id:
    reading, updating or deleting the id again raises 404. *)
Theorem delete_removes_the_row (i : Z) (data : ProcessedAgentData) (app : App)
    (r0 : ProcessedAgentDataInDB) :
  r0 ∈ rows (db app) -> id r0 = i ->
  exists (r : ProcessedAgentDataInDB) (app' : App),
    delete_processed_agent_data i app = (Return r, app') /\
    read_processed_agent_data i app = (Return r, app) /\
    absent i (db app') /\
    read_processed_agent_data i app' = (Raise (not_found i), app') /\
    update_processed_agent_data i data app' = (Raise (not_found i), app') /\
    delete_processed_agent_data i app' = (Raise (not_found i), app').
Proof.
  intros Hin Hid.
  destruct (select_first_is_Some (db app) i r0 Hin Hid) as [r Hsel].
  exists r, (with_db app (execute_delete (db app) i)).
  unfold delete_processed_agent_data, read_processed_agent_data,
    update_processed_agent_data.
  rewrite Hsel. simpl.
  rewrite select_first_delete, Z.eqb_refl.
  repeat split.
  intros r' Hr'. by apply elem_of_execute_delete in Hr' as [_ Hne].
Qed.

(** X5. A delete removes the rows of its id and nothing else: the rows
    left are those with another id, in their former order; a read of any
    other id gives what it gave before; and the sequence, the registry
    and the messages sent are untouched. *)
Theorem delete_leaves_other_rows (i : Z) (app : App) :
  let app' := snd (delete_processed_agent_data i app) in
  (forall r : ProcessedAgentDataInDB,
      r ∈ rows (db app') <-> r ∈ rows (db app) /\ id r <> i) /\
  rows (db app') `sublist_of` rows (db app) /\
  (forall j : Z,
      j <> i ->
      fst (read_processed_agent_data j app')
      = fst (read_processed_agent_data j app)) /\
  next_id (db app') = next_id (db app) /\
  subscriptions app' = subscriptions app /\ sent app' = sent app.
Proof.
  unfold delete_processed_agent_data.
  destruct (select_first (db app) i) as [r0|] eqn:Hsel; simpl.
  - split; [apply elem_of_execute_delete|].
    split; [apply execute_delete_sublist|].
    split; [|auto].
    intros j Hji. unfold read_processed_agent_data. simpl.
    rewrite select_first_delete, (proj2 (Z.eqb_neq j i) Hji).
    by destruct (select_first (db app) j).
  - split.
    { intros r. split; [|tauto]. intros Hr. split; [exact Hr|].
      intros Hid. unfold select_first in Hsel.
      assert (Hno : (id r =? i) = false).
      { apply (List.find_none _ _ Hsel r). by apply list_elem_of_In. }
      apply Z.eqb_neq in Hno. contradiction. }
    repeat split; reflexivity.
Qed.

(** ** Batch create, row by row *)

Lemma create_db (data : list ProcessedAgentData) (app : App) :
  snd (create_processed_agent_data data app) = snd (insert_loop data [] app).
Proof.
  unfold create_processed_agent_data.
  destruct (insert_loop data [] app) as [[l|e] app']; [destruct l|]; reflexivity.
Qed.

Lemma stored_rows_cons (first : Z) (item : ProcessedAgentData)
    (items : list ProcessedAgentData) :
  stored_rows first (item :: items)
  = row_of_values first (insert_values_of item) :: stored_rows (first + 1) items.
Proof.
  unfold stored_rows. simpl. rewrite Z.add_0_r. f_equal.
  apply imap_ext. intros k x _. simpl. f_equal. lia.
Qed.

(** The state a run of the loop leaves: rows for a prefix of the items
    were appended, and the run raised exactly when the prefix is proper,
    at the item that follows it. *)
Lemma insert_loop_run (data : list ProcessedAgentData)
    (inserted_records : list InsertValues) (app : App) :
  exists n : nat,
    (n <= length data)%nat /\
    snd (insert_loop data inserted_records app)
    = with_db app
        {| rows := rows (db app) ++ stored_rows (next_id (db app)) (take n data);
           next_id := next_id (db app) + Z.of_nat n |} /\
    match fst (insert_loop data inserted_records app) with
    | Return l =>
        n = length data /\ l = inserted_records ++ map insert_values_of data
    | Raise e =>
        exists (item : ProcessedAgentData) (message : string),
          data !! n = Some item /\
          insert_error (db (snd (insert_loop data inserted_records app)))
            (insert_values_of item) = Some message /\
          e = HTTPException 400 ("Error inserting data: " +:+ message)
    end.
Proof.
  revert inserted_records app.
  induction data as [|item rest IH]; intros acc app; simpl.
  - exists 0%nat. split; [lia|]. split.
    + unfold stored_rows. simpl. rewrite app_nil_r, Z.add_0_r.
      destruct app as [[l n] ? ? ?]. reflexivity.
    + by rewrite app_nil_r.
  - destruct (execute_insert (db app) (insert_values_of item)) as [d|message]
      eqn:Hins.
    + apply execute_insert_inl in Hins as [_ ->].
      destruct (IH (acc ++ [insert_values_of item])
                   (with_db app
                      {| rows := rows (db app)
                                 ++ [row_of_values (next_id (db app))
                                       (insert_values_of item)];
                         next_id := next_id (db app) + 1 |}))
        as (n & Hn & Hstate & Hres).
      exists (S n). split; [lia|]. split.
      * rewrite Hstate. unfold with_db; simpl. f_equal. f_equal.
        -- rewrite stored_rows_cons, <- app_assoc. reflexivity.
        -- lia.
      * destruct (fst (insert_loop rest (acc ++ [insert_values_of item]) _))
          as [l|e].
        -- destruct Hres as [-> ->]. split; [reflexivity|].
           by rewrite <- app_assoc.
        -- exact Hres.
    + exists 0%nat. split; [lia|]. split.
      * simpl. unfold stored_rows. simpl. rewrite app_nil_r, Z.add_0_r.
        destruct app as [[l n] ? ? ?]. reflexivity.
      * simpl. exists item, message. split; [reflexivity|].
        split; [by apply execute_insert_inr | reflexivity].
Qed.

(** X6. Whatever the engine accepts, a batch create only appends: the
    table it leaves is the former table followed by one row for each
    record of a prefix of the batch, in submission order and under
    consecutive ids from the sequence, which advances by the length of
    that prefix.  The request succeeds exactly when the prefix is the
    whole of a non-empty batch, and [list] then returns those rows. *)
Theorem create_appends_a_prefix (data : list ProcessedAgentData) (app : App) :
  exists n : nat,
    (n <= length data)%nat /\
    rows (db (snd (create_processed_agent_data data app)))
    = rows (db app) ++ stored_rows (next_id (db app)) (take n data) /\
    next_id (db (snd (create_processed_agent_data data app)))
    = next_id (db app) + Z.of_nat n /\
    fst (list_processed_agent_data (snd (create_processed_agent_data data app)))
    = Return (rows (db app) ++ stored_rows (next_id (db app)) (take n data)) /\
    ((exists first : InsertValues,
         fst (create_processed_agent_data data app) = Return first) <->
     n = length data /\ data <> []).
Proof.
  destruct (insert_loop_run data [] app) as (n & Hn & Hstate & Hres).
  exists n. split; [exact Hn|].
  unfold list_processed_agent_data, select_all.
  rewrite create_db, Hstate. simpl.
  split; [reflexivity|]. split; [reflexivity|]. split; [reflexivity|].
  unfold create_processed_agent_data.
  destruct (insert_loop data [] app) as [[l|e] app']; simpl in *.
  - destruct Hres as [-> ->]. destruct data as [|item rest]; simpl.
    + split; [intros [first Hf]; discriminate | intros [_ Hne]; contradiction].
    + split; [intros _; split; [reflexivity | discriminate] | eauto].
  - destruct Hres as (item & message & Hitem & _).
    split; [intros [first Hf]; discriminate|].
    intros [-> _]. apply lookup_lt_Some in Hitem. lia.
Qed.

Lemma stored_rows_ids (first : Z) (items : list ProcessedAgentData)
    (r : ProcessedAgentDataInDB) :
  r ∈ stored_rows first items ->
  first <= id r < first + Z.of_nat (length items).
Proof.
  unfold stored_rows. intros Hr.
  apply list_elem_of_lookup in Hr as [k Hk].
  rewrite list_lookup_imap in Hk.
  destruct (items !! k) as [item|] eqn:Hitem; [|discriminate].
  apply lookup_lt_Some in Hitem. injection Hk as <-. simpl. lia.
Qed.

Lemma stored_rows_unique (first : Z) (items : list ProcessedAgentData) :
  NoDup (map id (stored_rows first items)).
Proof.
  revert first. induction items as [|item rest IH]; intros first.
  - constructor.
  - rewrite stored_rows_cons. simpl. apply NoDup_cons. split; [|apply IH].
    intros Hin. apply list_elem_of_In, List.in_map_iff in Hin as (r & Hid & Hr).
    apply list_elem_of_In, stored_rows_ids in Hr. lia.
Qed.

Lemma select_first_stored (l : list ProcessedAgentDataInDB) (m first : Z)
    (items : list ProcessedAgentData) (k : nat) (item : ProcessedAgentData) :
  (forall r : ProcessedAgentDataInDB, r ∈ l -> id r < first) ->
  items !! k = Some item ->
  select_first {| rows := l ++ stored_rows first items; next_id := m |}
    (first + Z.of_nat k)
  = Some (row_of_values (first + Z.of_nat k) (insert_values_of item)).
Proof.
  unfold select_first; simpl. intros Hold.
  induction l as [|r l IHl].
  - clear Hold. rewrite app_nil_l. revert first k.
    induction items as [|x rest IH]; intros first k Hk; [discriminate|].
    rewrite stored_rows_cons. cbn [List.find].
    change (id (row_of_values first (insert_values_of x))) with first.
    destruct k as [|k]; simpl in Hk.
    + injection Hk as ->. by rewrite Z.add_0_r, Z.eqb_refl.
    + rewrite Nat2Z.inj_succ.
      rewrite (proj2 (Z.eqb_neq first (first + Z.succ (Z.of_nat k)))) by lia.
      replace (first + Z.succ (Z.of_nat k))
        with (first + 1 + Z.of_nat k) by lia.
      by apply IH.
  - intros Hk. rewrite <- app_comm_cons. cbn [List.find].
    rewrite (proj2 (Z.eqb_neq (id r) (first + Z.of_nat k))).
    + apply IHl; [|exact Hk]. intros r' Hr'. apply Hold. by right.
    + specialize (Hold r (list_elem_of_here _ _)). lia.
Qed.

Lemma accepted_runs_to_the_end (data : list ProcessedAgentData) (app : App) :
  accepted data ->
  insert_loop data [] app
  = (Return (map insert_values_of data),
     with_db app
       {| rows := rows (db app) ++ stored_rows (next_id (db app)) data;
          next_id := next_id (db app) + Z.of_nat (length data) |}).
Proof.
  intros Hacc.
  destruct (insert_loop_run data [] app) as (n & Hn & Hstate & Hres).
  destruct (insert_loop data [] app) as [[l|e] app'] eqn:Hloop; simpl in *.
  - destruct Hres as [-> ->]. rewrite Hstate, firstn_all. reflexivity.
  - destruct Hres as (item & message & Hitem & Herr & _).
    rewrite Hacc in Herr; [discriminate|].
    by eapply list_elem_of_lookup_2.
Qed.

(** X7. When the engine accepts every record of a batch sent to a table
    whose ids lie below the sequence, the request returns the values of
    the first record, and the record at position [k] of the batch can be
    read back under the id that lies [k] above the former value of the
    sequence, with the values inserted for it. *)
Theorem create_batch_then_read (data : list ProcessedAgentData) (app : App)
    (k : nat) (item : ProcessedAgentData) :
  ids_below_sequence (db app) ->
  accepted data ->
  data !! k = Some item ->
  exists (first : ProcessedAgentData) (app' : App),
    data !! 0%nat = Some first /\
    create_processed_agent_data data app
    = (Return (insert_values_of first), app') /\
    read_processed_agent_data (next_id (db app) + Z.of_nat k) app'
    = (Return (row_of_values (next_id (db app) + Z.of_nat k)
                 (insert_values_of item)),
       app').
Proof.
  intros Hids Hacc Hk.
  destruct data as [|first rest]; [discriminate|].
  exists first. eexists. split; [reflexivity|].
  unfold create_processed_agent_data.
  rewrite (accepted_runs_to_the_end _ app Hacc).
  split; [reflexivity|].
  unfold read_processed_agent_data. simpl db.
  rewrite (select_first_stored _ _ _ _ k item); [reflexivity | exact Hids | exact Hk].
Qed.

Lemma create_keeps_absent (i : Z) (data : list ProcessedAgentData) (app : App) :
  i < next_id (db app) -> absent i (db app) ->
  absent i (db (snd (create_processed_agent_data data app))).
Proof.
  intros Hlt Habs.
  destruct (insert_loop_run data [] app) as (n & _ & Hstate & _).
  rewrite create_db, Hstate. simpl.
  intros r Hr. apply elem_of_app in Hr as [Hr|Hr]; [by apply Habs|].
  apply stored_rows_ids in Hr. lia.
Qed.

(** X8. An id is never assigned twice: once a row of a table whose ids
    lie below the sequence has been deleted, no batch create gives its
    id to a new row, and a read of that id still raises 404. *)
Theorem deleted_id_is_not_reused (i : Z) (data : list ProcessedAgentData)
    (app : App) (r0 : ProcessedAgentDataInDB) :
  ids_below_sequence (db app) ->
  r0 ∈ rows (db app) -> id r0 = i ->
  let app' := snd (create_processed_agent_data data
                     (snd (delete_processed_agent_data i app))) in
  absent i (db app') /\
  read_processed_agent_data i app' = (Raise (not_found i), app').
Proof.
  intros Hids Hin Hid app'.
  assert (Habs : absent i (db app')).
  { apply create_keeps_absent.
    - unfold delete_processed_agent_data.
      destruct (select_first (db app) i); simpl; rewrite <- Hid; by apply Hids.
    - unfold delete_processed_agent_data.
      destruct (select_first_is_Some (db app) i r0 Hin Hid) as [r ->]. simpl.
      intros r' Hr'. by apply elem_of_execute_delete in Hr' as [_ Hne]. }
  split; [exact Habs|].
  unfold read_processed_agent_data.
  by rewrite (select_first_absent i (db app') Habs).
Qed.

Lemma filter_other_ids (i : Z) (l : list ProcessedAgentDataInDB) :
  (forall r : ProcessedAgentDataInDB, r ∈ l -> id r <> i) ->
  List.filter (fun r => negb (id r =? i)) l = l.
Proof.
  induction l as [|r l IH]; intros Hne; simpl; [reflexivity|].
  rewrite (proj2 (Z.eqb_neq (id r) i)) by (apply Hne; left). simpl.
  f_equal. apply IH. intros r' Hr'. apply Hne. by right.
Qed.

(** X24. Creating a record and deleting the id it was given undoes the
    insert but not the draw from the sequence: on a table whose ids lie
    below the sequence and with an engine that accepts the record, the
    delete returns the row just created, the rows of the table are those
    it had before the create, and the sequence stays one step ahead. *)
Theorem create_then_delete (r : ProcessedAgentData) (app : App) :
  ids_below_sequence (db app) ->
  insert_error (db app) (insert_values_of r) = None ->
  let created := snd (create_processed_agent_data [r] app) in
  exists app' : App,
    delete_processed_agent_data (next_id (db app)) created
    = (Return (row_of_values (next_id (db app)) (insert_values_of r)), app') /\
    rows (db app') = rows (db app) /\
    next_id (db app') = next_id (db app) + 1.
Proof.
  intros Hids Hok created.
  assert (Hcreated : created
                     = with_db app
                         {| rows := rows (db app)
                                    ++ [row_of_values (next_id (db app))
                                          (insert_values_of r)];
                            next_id := next_id (db app) + 1 |}).
  { subst created. unfold create_processed_agent_data; simpl.
    unfold execute_insert. by rewrite Hok. }
  rewrite Hcreated. eexists.
  unfold delete_processed_agent_data. simpl db.
  rewrite select_first_appended;
    [|intros r' Hr'; apply Hids in Hr'; lia | reflexivity].
  split; [reflexivity|]. simpl.
  split; [|reflexivity].
  rewrite List.filter_app. simpl. rewrite Z.eqb_refl. simpl.
  rewrite app_nil_r. apply filter_other_ids.
  intros r' Hr'. apply Hids in Hr'. lia.
Qed.

(** ** The primary key is kept *)

Lemma create_well_formed (data : list ProcessedAgentData) (app : App) :
  well_formed (db app) ->
  well_formed (db (snd (create_processed_agent_data data app))).
Proof.
  intros [Huniq Hids].
  destruct (insert_loop_run data [] app) as (n & Hn & Hstate & _).
  rewrite create_db, Hstate. simpl. split.
  - unfold unique_ids; simpl. rewrite List.map_app.
    apply NoDup_app. split; [exact Huniq|]. split; [|apply stored_rows_unique].
    intros i Hold Hnew.
    apply list_elem_of_In, List.in_map_iff in Hold as (r & <- & Hr).
    apply list_elem_of_In, List.in_map_iff in Hnew as (r' & Hid & Hr').
    apply list_elem_of_In, Hids in Hr.
    apply list_elem_of_In, stored_rows_ids in Hr'. lia.
  - intros r Hr. simpl in Hr. apply elem_of_app in Hr as [Hr|Hr].
    + apply Hids in Hr. simpl. lia.
    + apply stored_rows_ids in Hr. rewrite length_take in Hr. simpl. lia.
Qed.

Lemma update_well_formed (i : Z) (data : ProcessedAgentData) (app : App) :
  well_formed (db app) ->
  well_formed (db (snd (update_processed_agent_data i data app))).
Proof.
  intros [Huniq Hids]. split; [|by apply update_ids].
  unfold update_processed_agent_data, execute_update.
  destruct (select_first (db app) i); simpl; [|exact Huniq].
  destruct (update_error i data); simpl; [exact Huniq|].
  unfold unique_ids. by rewrite updated_table_ids.
Qed.

Lemma delete_well_formed (i : Z) (app : App) :
  well_formed (db app) ->
  well_formed (db (snd (delete_processed_agent_data i app))).
Proof.
  intros [Huniq Hids]. split; [|by apply delete_ids].
  unfold delete_processed_agent_data.
  destruct (select_first (db app) i); simpl; [|exact Huniq].
  unfold unique_ids in *. simpl.
  induction (rows (db app)) as [|r l IH]; simpl; [constructor|].
  apply NoDup_cons in Huniq as [Hfresh Huniq].
  destruct (negb (id r =? i)); simpl; [|by apply IH].
  apply NoDup_cons. split; [|by apply IH].
  intros Hin. apply Hfresh.
  apply list_elem_of_In, List.in_map_iff in Hin as (r' & Hid & Hr').
  apply List.filter_In in Hr' as [Hr' _].
  apply list_elem_of_In, List.in_map_iff. eauto.
Qed.

(** X9. The primary key is an invariant of the service: when the ids of
    the table are pairwise distinct and below the sequence, they still
    are after a batch create, an update or a delete, whatever their
    outcome; reads, listings, the WebSocket endpoint and the fan-out do
    not change the table at all. *)
Theorem table_stays_well_formed (app : App) :
  well_formed (db app) ->
  (forall data : list ProcessedAgentData,
      well_formed (db (snd (create_processed_agent_data data app)))) /\
  (forall (i : Z) (data : ProcessedAgentData),
      well_formed (db (snd (update_processed_agent_data i data app)))) /\
  (forall i : Z, well_formed (db (snd (delete_processed_agent_data i app)))) /\
  (forall i : Z, snd (read_processed_agent_data i app) = app) /\
  snd (list_processed_agent_data app) = app /\
  (forall (websocket : WebSocket) (user_id : Z),
      db (websocket_endpoint_accept websocket user_id app) = db app /\
      db (snd (websocket_endpoint_disconnect websocket user_id app)) = db app) /\
  (forall (user_id : Z) (data : string),
      db (snd (send_data_to_subscribers user_id data app)) = db app).
Proof.
  intros Hwf.
  split; [intros data; by apply create_well_formed|].
  split; [intros i data; by apply update_well_formed|].
  split; [intros i; by apply delete_well_formed|].
  split.
  { intros i. unfold read_processed_agent_data.
    by destruct (select_first (db app) i). }
  split; [reflexivity|].
  split.
  { intros websocket user_id. split; [reflexivity|].
    unfold websocket_endpoint_disconnect.
    destruct (subscriptions app !! user_id) as [s|]; [|reflexivity].
    by destruct (decide (websocket ∈ s)). }
  intros user_id data. apply send_data_to_subscribers_frame.
Qed.

End TableFacts.

(* ===================================================================== *)
(** * Further properties of the registry and the fan-out                  *)
(* ===================================================================== *)

Section RegistryFacts.
Import Store.
Context `{Externals}.

Lemma with_subscriptions_id (app : App) :
  with_subscriptions app (subscriptions app) = app.
Proof. by destruct app. Qed.

(** A run of the loop serves a prefix of the listeners, all of them
    open, and stops either at the end or at the first closed one. *)
Lemma send_loop_run (websockets : list WebSocket) (message : string) (app : App) :
  exists served rest : list WebSocket,
    websockets = served ++ rest /\
    (forall ws : WebSocket, ws ∈ served -> ws ∉ closed app) /\
    snd (send_loop websockets message app)
    = with_sent app (sent app ++ map (fun ws => (ws, message)) served) /\
    ((fst (send_loop websockets message app) = Return tt /\ rest = []) \/
     (fst (send_loop websockets message app) = Raise WebSocketDisconnect /\
      exists (bad : WebSocket) (after : list WebSocket),
        rest = bad :: after /\ bad ∈ closed app)).
Proof.
  revert app. induction websockets as [|ws l IH]; intros app; simpl.
  - exists [], []. split; [reflexivity|].
    split; [intros ws Hws; by apply elem_of_nil in Hws|].
    split; [by rewrite app_nil_r, with_sent_id | by left].
  - destruct (decide (ws ∈ closed app)) as [Hbad|Hopen].
    + exists [], (ws :: l). split; [reflexivity|].
      split; [intros ws' Hws'; by apply elem_of_nil in Hws'|].
      split; [simpl; by rewrite app_nil_r, with_sent_id|].
      right. split; [reflexivity|]. eauto.
    + destruct (IH (with_sent app (sent app ++ [(ws, message)])))
        as (served & rest & -> & Hserved & Hstate & Hend).
      exists (ws :: served), rest. split; [reflexivity|].
      split.
      { intros ws' Hws'. apply elem_of_cons in Hws' as [->|Hws'];
          [exact Hopen | by apply Hserved]. }
      split.
      { rewrite Hstate. unfold with_sent; simpl. by rewrite <- app_assoc. }
      exact Hend.
Qed.

Lemma NoDup_map_pair (message : string) (l : list WebSocket) :
  NoDup l -> NoDup (map (fun ws => (ws, message)) l).
Proof.
  induction 1 as [|ws l Hfresh Hnd IH]; simpl; constructor; [|exact IH].
  intros Hin. apply Hfresh.
  apply list_elem_of_In, List.in_map_iff in Hin as (ws' & [= ->] & Hws').
  by apply list_elem_of_In.
Qed.

(** X10. When the connections of all the listeners of a user are open, a
    publish returns normally and appends exactly one message per
    listener of that user, each carrying [json.dumps] of the data, and
    no message for anybody else. *)
Theorem publish_reaches_each_listener_once (user_id : Z) (data : string)
    (app : App) (s : gset WebSocket) :
  subscriptions app !! user_id = Some s ->
  (forall ws : WebSocket, ws ∈ s -> ws ∉ closed app) ->
  exists new : list (WebSocket * string),
    send_data_to_subscribers user_id data app
    = (Return tt, with_sent app (sent app ++ new)) /\
    NoDup new /\
    length new = size s /\
    (forall (ws : WebSocket) (message : string),
        (ws, message) ∈ new <-> ws ∈ s /\ message = json_dumps data).
Proof.
  intros Hs Hopen.
  exists (map (fun ws => (ws, json_dumps data)) (elements s)).
  unfold send_data_to_subscribers. rewrite Hs.
  split.
  { apply send_loop_open. intros ws Hws. apply Hopen.
    by apply elem_of_elements. }
  split; [apply NoDup_map_pair, NoDup_elements|].
  split; [by rewrite length_map|].
  intros ws message. rewrite list_elem_of_In, List.in_map_iff. split.
  - intros (ws' & [= -> ->] & Hws'). split; [|reflexivity].
    by apply elem_of_elements, list_elem_of_In.
  - intros [Hws ->]. exists ws. split; [reflexivity|].
    by apply list_elem_of_In, elem_of_elements.
Qed.

(** X11. Whatever the state of the connections, a publish only appends
    to the messages sent, at most one message per listener; every
    message it appends carries [json.dumps] of the data and goes to a
    listener that is subscribed to that user and whose connection is
    open; and it either returns normally or raises the failure of a
    send. *)
Theorem publish_is_safe (user_id : Z) (data : string) (app : App) :
  exists new : list (WebSocket * string),
    snd (send_data_to_subscribers user_id data app)
    = with_sent app (sent app ++ new) /\
    NoDup new /\
    (forall (ws : WebSocket) (message : string),
        (ws, message) ∈ new ->
        message = json_dumps data /\
        (ws ∉ closed app) /\
        exists s : gset WebSocket,
          subscriptions app !! user_id = Some s /\ ws ∈ s) /\
    (fst (send_data_to_subscribers user_id data app) = Return tt \/
     fst (send_data_to_subscribers user_id data app) = Raise WebSocketDisconnect).
Proof.
  unfold send_data_to_subscribers.
  destruct (subscriptions app !! user_id) as [s|] eqn:Hs.
  - destruct (send_loop_run (elements s) (json_dumps data) app)
      as (served & rest & Hsplit & Hserved & Hstate & Hend).
    exists (map (fun ws => (ws, json_dumps data)) served).
    split; [exact Hstate|].
    assert (Hnd : NoDup (served ++ rest))
      by (rewrite <- Hsplit; apply NoDup_elements).
    split; [apply NoDup_map_pair; by apply NoDup_app in Hnd as [? _]|].
    split.
    + intros ws message Hin.
      apply list_elem_of_In, List.in_map_iff in Hin as (ws' & [= -> ->] & Hws').
      apply list_elem_of_In in Hws'.
      split; [reflexivity|]. split; [by apply Hserved|].
      exists s. split; [reflexivity|].
      apply elem_of_elements. rewrite Hsplit. apply elem_of_app. by left.
    + destruct Hend as [[-> _]|[-> _]]; auto.
  - exists []. split; [simpl; by rewrite app_nil_r, with_sent_id|].
    split; [constructor|].
    split; [intros ws message Hin; by apply elem_of_nil in Hin | by left].
Qed.

(** ** The life of a subscription *)

Lemma send_loop_with_subscriptions (websockets : list WebSocket)
    (message : string) (app : App) (m : gmap Z (gset WebSocket)) :
  send_loop websockets message (with_subscriptions app m)
  = (fst (send_loop websockets message app),
     with_subscriptions (snd (send_loop websockets message app)) m).
Proof.
  revert app. induction websockets as [|ws l IH]; intros app; simpl;
    [reflexivity|].
  destruct (decide (ws ∈ closed app)); [reflexivity|].
  apply (IH (with_sent app (sent app ++ [(ws, message)]))).
Qed.

(** X12. The dictionary entry of a user is never removed.  When a
    listener connects for a user that has no entry and later
    disconnects, the user is left with an empty set; a publish to a user
    with no entry or with an empty set returns normally and sends
    nothing. *)
Theorem empty_entry_stays (websocket : WebSocket) (user_id : Z)
    (data : string) (app : App) :
  subscriptions app !! user_id = None ->
  let app' := snd (websocket_endpoint websocket user_id app) in
  fst (websocket_endpoint websocket user_id app) = Return tt /\
  subscriptions app' !! user_id = Some ∅ /\
  send_data_to_subscribers user_id data app = (Return tt, app) /\
  send_data_to_subscribers user_id data app' = (Return tt, app').
Proof.
  intros Hnone app'.
  assert (Hrun : websocket_endpoint websocket user_id app
                 = (Return tt,
                    with_subscriptions app (<[user_id := ∅]> (subscriptions app)))).
  { unfold websocket_endpoint, websocket_endpoint_disconnect.
    rewrite accept_run. simpl.
    rewrite lookup_insert_eq, Hnone. simpl.
    destruct (decide (websocket ∈ (∅ ∪ {[websocket]} : gset WebSocket)))
      as [_|Hout].
    - unfold with_subscriptions; simpl. f_equal. f_equal.
      rewrite insert_insert_eq. f_equal.
      rewrite (left_id_L ∅ (∪)). apply difference_diag_L.
    - exfalso. apply Hout, elem_of_union_r, elem_of_singleton. reflexivity. }
  subst app'. rewrite Hrun. simpl.
  split; [reflexivity|].
  split; [apply lookup_insert_eq|].
  unfold send_data_to_subscribers. simpl.
  rewrite Hnone, lookup_insert_eq, elements_empty. simpl.
  split; reflexivity.
Qed.

(** X13. For a user that has an entry, a listener that connects and
    later disconnects leaves the whole state as it found it, when it was
    not in the set before. *)
Theorem connect_then_disconnect_restores (websocket : WebSocket) (user_id : Z)
    (app : App) (s : gset WebSocket) :
  subscriptions app !! user_id = Some s ->
  websocket ∉ s ->
  websocket_endpoint websocket user_id app = (Return tt, app).
Proof.
  intros Hs Hout.
  unfold websocket_endpoint, websocket_endpoint_disconnect.
  rewrite accept_run. simpl.
  rewrite lookup_insert_eq, Hs. simpl.
  destruct (decide (websocket ∈ s ∪ {[websocket]})) as [_|Hno].
  - f_equal. unfold with_subscriptions; simpl.
    rewrite insert_insert_eq.
    replace ((s ∪ {[websocket]}) ∖ {[websocket]}) with s.
    + rewrite (insert_id _ _ _ Hs). by destruct app.
    + apply set_eq. intros ws.
      rewrite elem_of_difference, elem_of_union, elem_of_singleton.
      split; [intros Hws; split; [by left | congruence] | tauto].
  - exfalso. apply Hno, elem_of_union_r, elem_of_singleton. reflexivity.
Qed.

(** X14. A listener that has connected gets the next publish to its
    user, once, when its connection and those of the listeners already
    subscribed to that user are open. *)
Theorem subscribed_listener_receives (websocket : WebSocket) (user_id : Z)
    (data : string) (app : App) :
  websocket ∉ closed app ->
  (forall (s : gset WebSocket) (ws : WebSocket),
      subscriptions app !! user_id = Some s -> ws ∈ s -> ws ∉ closed app) ->
  exists new : list (WebSocket * string),
    send_data_to_subscribers user_id data
      (websocket_endpoint_accept websocket user_id app)
    = (Return tt,
       with_sent (websocket_endpoint_accept websocket user_id app)
         (sent app ++ new)) /\
    NoDup new /\
    (websocket, json_dumps data) ∈ new.
Proof.
  intros Hopen Hothers.
  pose (s' := default ∅ (subscriptions app !! user_id) ∪ {[websocket]}).
  exists (map (fun ws => (ws, json_dumps data)) (elements s')).
  split.
  - unfold send_data_to_subscribers.
    rewrite accept_subscriptions, lookup_insert_eq.
    rewrite send_loop_open; [reflexivity|].
    intros ws Hws. apply elem_of_elements in Hws.
    change (closed (websocket_endpoint_accept websocket user_id app))
      with (closed app).
    apply elem_of_union in Hws as [Hws|Hws].
    + destruct (subscriptions app !! user_id) as [s|] eqn:Hs; simpl in Hws.
      * by apply (Hothers s).
      * by apply not_elem_of_empty in Hws.
    + apply elem_of_singleton in Hws as ->. exact Hopen.
  - split; [apply NoDup_map_pair, NoDup_elements|].
    apply list_elem_of_In, List.in_map_iff. exists websocket.
    split; [reflexivity|].
    apply list_elem_of_In, elem_of_elements, elem_of_union_r, elem_of_singleton.
    reflexivity.
Qed.

(** X15. Once the endpoint has removed a listener, a publish to its user
    sends nothing to it. *)
Theorem disconnected_listener_receives_nothing (websocket : WebSocket)
    (user_id : Z) (data : string) (app app' : App) :
  websocket_endpoint_disconnect websocket user_id app = (Return tt, app') ->
  exists new : list (WebSocket * string),
    sent (snd (send_data_to_subscribers user_id data app')) = sent app ++ new /\
    forall message : string, (websocket, message) ∉ new.
Proof.
  unfold websocket_endpoint_disconnect.
  destruct (subscriptions app !! user_id) as [s|] eqn:Hs; [|discriminate].
  destruct (decide (websocket ∈ s)) as [Hin|Hout]; [|discriminate].
  intros [= <-].
  unfold send_data_to_subscribers. simpl. rewrite lookup_insert_eq.
  rewrite send_loop_with_subscriptions. simpl.
  destruct (send_loop_run (elements (s ∖ {[websocket]})) (json_dumps data) app)
    as (served & rest & Hsplit & _ & Hstate & _).
  exists (map (fun ws => (ws, json_dumps data)) served).
  rewrite Hstate. split; [reflexivity|].
  intros message Hmem.
  apply list_elem_of_In, List.in_map_iff in Hmem as (ws & [= -> _] & Hws).
  assert (Hin' : websocket ∈ s ∖ {[websocket]}).
  { apply elem_of_elements. rewrite Hsplit. apply elem_of_app. left.
    by apply list_elem_of_In. }
  apply elem_of_difference in Hin' as [_ Hne].
  apply Hne, elem_of_singleton. reflexivity.
Qed.

(** X16. Users are isolated from each other: a listener that connects
    or disconnects for one user changes neither the outcome of a publish
    to another user nor the messages that publish sends. *)
Theorem other_users_are_unaffected (websocket : WebSocket) (user_id other : Z)
    (data : string) (app : App) :
  other <> user_id ->
  let connected := websocket_endpoint_accept websocket user_id app in
  let departed := snd (websocket_endpoint_disconnect websocket user_id app) in
  subscriptions connected !! other = subscriptions app !! other /\
  subscriptions departed !! other = subscriptions app !! other /\
  fst (send_data_to_subscribers other data connected)
  = fst (send_data_to_subscribers other data app) /\
  sent (snd (send_data_to_subscribers other data connected))
  = sent (snd (send_data_to_subscribers other data app)) /\
  fst (send_data_to_subscribers other data departed)
  = fst (send_data_to_subscribers other data app) /\
  sent (snd (send_data_to_subscribers other data departed))
  = sent (snd (send_data_to_subscribers other data app)).
Proof.
  intros Hne connected departed.
  assert (Hc : subscriptions connected !! other = subscriptions app !! other).
  { subst connected. rewrite accept_subscriptions.
    by rewrite lookup_insert_ne. }
  assert (Hl : subscriptions departed !! other = subscriptions app !! other).
  { subst departed. unfold websocket_endpoint_disconnect.
    destruct (subscriptions app !! user_id) as [s|]; [|reflexivity].
    destruct (decide (websocket ∈ s)); [|reflexivity].
    simpl. by rewrite lookup_insert_ne. }
  split; [exact Hc|]. split; [exact Hl|].
  assert (Hsend : forall app1 : App,
             subscriptions app1 !! other = subscriptions app !! other ->
             app1 = with_subscriptions app (subscriptions app1) ->
             fst (send_data_to_subscribers other data app1)
             = fst (send_data_to_subscribers other data app) /\
             sent (snd (send_data_to_subscribers other data app1))
             = sent (snd (send_data_to_subscribers other data app))).
  { intros app1 Hsame Hshape. unfold send_data_to_subscribers.
    rewrite Hsame.
    destruct (subscriptions app !! other) as [s|]; [|by rewrite Hshape].
    rewrite Hshape, send_loop_with_subscriptions. simpl. auto. }
  destruct (Hsend connected Hc) as [H1 H2]; [reflexivity|].
  destruct (Hsend departed Hl) as [H3 H4].
  { subst departed. unfold websocket_endpoint_disconnect.
    destruct (subscriptions app !! user_id) as [s|];
      [|by rewrite with_subscriptions_id].
    destruct (decide (websocket ∈ s)); [reflexivity|].
    by rewrite with_subscriptions_id. }
  auto.
Qed.

End RegistryFacts.

(* ===================================================================== *)
(** * Further properties of the aggregation and of the classifier         *)
(* ===================================================================== *)

Section AggregationFacts.
Import Agent.

Variable USER_ID : Z.
Variable now : nat -> datetime.

Lemma zip_take {A B C : Type} (n : nat) (a : list A) (b : list B) (c : list C) :
  zip (take n a) (take n b) (take n c) = take n (zip a b c).
Proof.
  revert a b c. induction n as [|n IH]; intros a b c.
  - by rewrite !take_0.
  - destruct a as [|x a], b as [|y b], c as [|z c]; simpl;
      try reflexivity; try (by destruct (take n a)); try (by destruct (take n a), (take n b)).
    f_equal. apply IH.
Qed.

Lemma zip_app {A B C : Type} (a1 a2 : list A) (b1 b2 : list B) (c1 c2 : list C) :
  length a1 = length b1 -> length a1 = length c1 ->
  zip (a1 ++ a2) (b1 ++ b2) (c1 ++ c2) = zip a1 b1 c1 ++ zip a2 b2 c2.
Proof.
  revert b1 c1. induction a1 as [|x a1 IH]; intros [|y b1] [|z c1]; simpl;
    try discriminate; [reflexivity|].
  intros [= Hb] [= Hc]. f_equal. by apply IH.
Qed.

Lemma read_run (accelerometer_data : list Accelerometer) (gps_data : list Gps)
    (parking_data : list Parking) (k : nat) :
  read USER_ID now (Return accelerometer_data) (Return gps_data)
    (Return parking_data) k
  = (Return (imap (aggregate USER_ID now k)
               (zip accelerometer_data gps_data parking_data)),
     (k + length (zip accelerometer_data gps_data parking_data))%nat).
Proof.
  unfold read. by rewrite read_loop_run.
Qed.

(** X17. Only the entries up to the length of the shortest sequence
    count: [read] gives the same records and takes the same number of
    clock readings on the three sequences as on the three sequences cut
    to the length of the shortest one. *)
Theorem read_ignores_the_excess (accelerometer_data : list Accelerometer)
    (gps_data : list Gps) (parking_data : list Parking) (k : nat) :
  let n := (length accelerometer_data `min`
              (length gps_data `min` length parking_data))%nat in
  read USER_ID now (Return accelerometer_data) (Return gps_data)
    (Return parking_data) k
  = read USER_ID now (Return (take n accelerometer_data))
      (Return (take n gps_data)) (Return (take n parking_data)) k.
Proof.
  intros n. rewrite !read_run, zip_take.
  rewrite take_ge; [reflexivity|].
  rewrite zip_length. subst n. lia.
Qed.

(** X18. Aggregating in two polls gives what one poll gives: when the
    first parts of the three sequences have the same length, [read] on
    the concatenated sequences returns the records of [read] on the
    first parts followed by those of [read] on the second parts, the
    second call going on with the clock where the first one left it. *)
Theorem read_of_concatenation (a1 a2 : list Accelerometer) (g1 g2 : list Gps)
    (p1 p2 : list Parking) (k : nat) :
  length a1 = length g1 -> length a1 = length p1 ->
  exists (r1 r2 : list AggregatedData) (k1 k2 : nat),
    read USER_ID now (Return a1) (Return g1) (Return p1) k = (Return r1, k1) /\
    read USER_ID now (Return a2) (Return g2) (Return p2) k1 = (Return r2, k2) /\
    read USER_ID now (Return (a1 ++ a2)) (Return (g1 ++ g2)) (Return (p1 ++ p2)) k
    = (Return (r1 ++ r2), k2).
Proof.
  intros Hg Hp.
  eexists _, _, _, _.
  split; [apply read_run|]. split; [apply read_run|].
  rewrite read_run, (zip_app _ _ _ _ _ _ Hg Hp).
  rewrite imap_app, length_app. f_equal; [|lia].
  f_equal. f_equal. apply imap_ext. intros i t _.
  unfold aggregate. f_equal. f_equal. lia.
Qed.

End AggregationFacts.

Section ClassifierFacts.
Import Edge.

(** X19. Two calls never share an object: the second call returns a
    reference different from the first, both objects are on the final
    heap with their own label and input, and the second call leaves the
    object of the first as it was. *)
Theorem two_calls_two_objects (a1 a2 : AgentData) (h : Heap) :
  let '(p1, h1) := process_agent_data a1 h in
  let '(p2, h2) := process_agent_data a2 h1 in
  p1 <> p2 /\
  h1 !! p1 = Some {| road_state := label_of a1; agent_data := a1 |} /\
  h2 !! p1 = Some {| road_state := label_of a1; agent_data := a1 |} /\
  h2 !! p2 = Some {| road_state := label_of a2; agent_data := a2 |} /\
  length h2 = (length h + 2)%nat.
Proof.
  rewrite !process_agent_data_run.
  split; [rewrite length_app; simpl; lia|].
  split; [apply lookup_last|].
  split; [apply lookup_app_l_Some, lookup_last|].
  split; [apply lookup_last|].
  rewrite !length_app. simpl. lia.
Qed.

End ClassifierFacts.

(* ===================================================================== *)
(** * Properties of the CSV readers                                       *)
(* ===================================================================== *)

Section ReaderFacts.
Import Agent.

Variable int : string -> option Z.
Variable to_float : string -> option float.
Variable unpack_error : nat -> list string -> string.

Lemma read_rows_Return {A : Type} (parse : list string -> Result A)
    (rows : list (list string)) (data l : list A) :
  read_rows parse rows data = Return l <->
  exists values : list A,
    Forall2 (fun row value => parse row = Return value) rows values /\
    l = data ++ values.
Proof.
  revert data. induction rows as [|row rest IH]; intros data; simpl.
  - split.
    + intros [= <-]. exists []. split; [constructor | by rewrite app_nil_r].
    + intros (values & Hall & ->). apply Forall2_nil_inv_l in Hall as ->.
      by rewrite app_nil_r.
  - destruct (parse row) as [value|e] eqn:Hrow.
    + rewrite IH. split.
      * intros (values & Hall & ->). exists (value :: values).
        split; [by constructor | by rewrite <- app_assoc].
      * intros (values & Hall & ->).
        apply Forall2_cons_inv_l in Hall as (v & values' & Hv & Hall & ->).
        rewrite Hrow in Hv. injection Hv as <-.
        exists values'. split; [exact Hall | by rewrite <- app_assoc].
    + split; [discriminate|].
      intros (values & Hall & _).
      apply Forall2_cons_inv_l in Hall as (v & values' & Hv & _).
      rewrite Hrow in Hv. discriminate.
Qed.

Lemma read_rows_Raise {A : Type} (parse : list string -> Result A)
    (rows : list (list string)) (data : list A) (e : Exception) :
  read_rows parse rows data = Raise e <->
  exists (before : list (list string)) (row : list string)
         (after : list (list string)) (values : list A),
    rows = before ++ row :: after /\
    Forall2 (fun row value => parse row = Return value) before values /\
    parse row = Raise e.
Proof.
  revert data. induction rows as [|row rest IH]; intros data; simpl.
  - split; [discriminate|].
    intros (before & r & after & values & Hsplit & _).
    by destruct before.
  - destruct (parse row) as [value|e'] eqn:Hrow.
    + rewrite IH. split.
      * intros (before & r & after & values & -> & Hall & Hr).
        exists (row :: before), r, after, (value :: values).
        split; [reflexivity|]. split; [by constructor | exact Hr].
      * intros (before & r & after & values & Hsplit & Hall & Hr).
        destruct before as [|b before]; simpl in Hsplit.
        -- injection Hsplit as <- <-. rewrite Hrow in Hr. discriminate.
        -- injection Hsplit as <- ->.
           apply Forall2_cons_inv_l in Hall as (v & values' & _ & Hall & _).
           exists before, r, after, values'. auto.
    + split.
      * intros [= <-]. exists [], row, rest, [].
        split; [reflexivity|]. split; [constructor | exact Hrow].
      * intros (before & r & after & values & Hsplit & Hall & Hr).
        destruct before as [|b before]; simpl in Hsplit.
        -- injection Hsplit as <- <-. rewrite Hrow in Hr. by injection Hr as <-.
        -- injection Hsplit as <- ->.
           apply Forall2_cons_inv_l in Hall as (v & values' & Hv & _).
           rewrite Hrow in Hv. discriminate.
Qed.

Lemma parse_accelerometer_Return (row : list string) (a : Accelerometer) :
  parse_accelerometer int unpack_error row = Return a <->
  accelerometer_row int row a.
Proof.
  unfold parse_accelerometer, unpack3, accelerometer_row. split.
  - destruct row as [|sx [|sy [|sz [|? ?]]]]; try discriminate.
    destruct (int sx) as [vx|] eqn:Hx; [|discriminate].
    destruct (int sy) as [vy|] eqn:Hy; [|discriminate].
    destruct (int sz) as [vz|] eqn:Hz; [|discriminate].
    intros [= <-]. exists sx, sy, sz. auto.
  - intros (sx & sy & sz & -> & -> & -> & ->). by destruct a.
Qed.

Lemma parse_accelerometer_Raise (row : list string) (e : Exception) :
  parse_accelerometer int unpack_error row = Raise e <->
  (forall a : Accelerometer, ~ accelerometer_row int row a) /\
  e = ValueError (unpack_error 3%nat row).
Proof.
  split.
  - intros Hraise. split.
    + intros a Ha. apply parse_accelerometer_Return in Ha. congruence.
    + revert Hraise. unfold parse_accelerometer, unpack3.
      destruct row as [|sx [|sy [|sz [|? ?]]]]; try (by intros [= <-]).
      destruct (int sx), (int sy), (int sz); by intros [= <-].
  - intros [Hno ->].
    destruct (parse_accelerometer int unpack_error row) as [a|e] eqn:Hrow.
    + exfalso. apply (Hno a). by apply parse_accelerometer_Return.
    + revert Hrow. unfold parse_accelerometer, unpack3.
      destruct row as [|sx [|sy [|sz [|? ?]]]]; try (by intros [= <-]).
      destruct (int sx), (int sy), (int sz); by intros [= <-].
Qed.

Lemma parse_gps_Return (row : list string) (g : Gps) :
  parse_gps to_float unpack_error row = Return g <-> gps_row to_float row g.
Proof.
  unfold parse_gps, unpack2, gps_row. split.
  - destruct row as [|slon [|slat [|? ?]]]; try discriminate.
    destruct (to_float slon) as [vlon|] eqn:Hlon; [|discriminate].
    destruct (to_float slat) as [vlat|] eqn:Hlat; [|discriminate].
    intros [= <-]. exists slon, slat. auto.
  - intros (slon & slat & -> & -> & ->). by destruct g.
Qed.

Lemma parse_gps_Raise (row : list string) (e : Exception) :
  parse_gps to_float unpack_error row = Raise e <->
  (forall g : Gps, ~ gps_row to_float row g) /\
  e = ValueError (unpack_error 2%nat row).
Proof.
  split.
  - intros Hraise. split.
    + intros g Hg. apply parse_gps_Return in Hg. congruence.
    + revert Hraise. unfold parse_gps, unpack2.
      destruct row as [|slon [|slat [|? ?]]]; try (by intros [= <-]).
      destruct (to_float slon), (to_float slat); by intros [= <-].
  - intros [Hno ->].
    destruct (parse_gps to_float unpack_error row) as [g|e] eqn:Hrow.
    + exfalso. apply (Hno g). by apply parse_gps_Return.
    + revert Hrow. unfold parse_gps, unpack2.
      destruct row as [|slon [|slat [|? ?]]]; try (by intros [= <-]).
      destruct (to_float slon), (to_float slat); by intros [= <-].
Qed.

Lemma Forall2_iff_rel {A B : Type} (P Q : A -> B -> Prop) (l : list A) (k : list B) :
  (forall a b, P a b <-> Q a b) -> Forall2 P l k <-> Forall2 Q l k.
Proof.
  intros HPQ.
  split; intros Hall; (eapply Forall2_impl; [exact Hall|]); intros a b; apply HPQ.
Qed.

Lemma Forall2_accelerometer_row (rows : list (list string)) (l : list Accelerometer) :
  Forall2 (fun row a => parse_accelerometer int unpack_error row = Return a) rows l
  <-> Forall2 (accelerometer_row int) rows l.
Proof.
  apply Forall2_iff_rel. intros row a. apply parse_accelerometer_Return.
Qed.

Lemma Forall2_gps_row (rows : list (list string)) (l : list Gps) :
  Forall2 (fun row g => parse_gps to_float unpack_error row = Return g) rows l
  <-> Forall2 (gps_row to_float) rows l.
Proof.
  apply Forall2_iff_rel. intros row g. apply parse_gps_Return.
Qed.

(** X20. [read_accelerometer_data] returns a list exactly when every
    data row of the file has three fields that [int] accepts; the list
    then has one reading per data row, in the order of the file, with
    the fields as x, y and z, and the header row plays no part. *)
Theorem read_accelerometer_data_rows (file : CsvFile) (l : list Accelerometer) :
  read_accelerometer_data int unpack_error file = Return l <->
  Forall2 (accelerometer_row int) (records file) l.
Proof.
  unfold read_accelerometer_data. rewrite read_rows_Return. split.
  - intros (values & Hall & ->). simpl. by apply Forall2_accelerometer_row.
  - intros Hall. exists l. split; [|reflexivity].
    by apply Forall2_accelerometer_row.
Qed.

(** X21. [read_gps_data] returns a list exactly when every data row of
    the file has two fields that [float] accepts; the list then has one
    position per data row, in the order of the file, the first field
    being the longitude and the second the latitude. *)
Theorem read_gps_data_rows (file : CsvFile) (l : list Gps) :
  read_gps_data to_float unpack_error file = Return l <->
  Forall2 (gps_row to_float) (records file) l.
Proof.
  unfold read_gps_data. rewrite read_rows_Return. split.
  - intros (values & Hall & ->). simpl. by apply Forall2_gps_row.
  - intros Hall. exists l. split; [|reflexivity]. by apply Forall2_gps_row.
Qed.

(** X22. A reader raises exactly when some data row is not acceptable:
    the exception is then the [ValueError] of the first such row, the
    rows before it having been accepted, and no reading is returned. *)
Theorem reader_stops_at_first_bad_row (file : CsvFile) (e : Exception) :
  (read_accelerometer_data int unpack_error file = Raise e <->
   exists (before : list (list string)) (row : list string)
          (after : list (list string)) (readings : list Accelerometer),
     records file = before ++ row :: after /\
     Forall2 (accelerometer_row int) before readings /\
     (forall a : Accelerometer, ~ accelerometer_row int row a) /\
     e = ValueError (unpack_error 3%nat row)) /\
  (read_gps_data to_float unpack_error file = Raise e <->
   exists (before : list (list string)) (row : list string)
          (after : list (list string)) (positions : list Gps),
     records file = before ++ row :: after /\
     Forall2 (gps_row to_float) before positions /\
     (forall g : Gps, ~ gps_row to_float row g) /\
     e = ValueError (unpack_error 2%nat row)).
Proof.
  split.
  - unfold read_accelerometer_data. rewrite read_rows_Raise. split.
    + intros (before & row & after & values & Hsplit & Hall & Hrow).
      apply parse_accelerometer_Raise in Hrow as [Hno ->].
      exists before, row, after, values.
      split; [exact Hsplit|]. split; [by apply Forall2_accelerometer_row|].
      split; [exact Hno | reflexivity].
    + intros (before & row & after & values & Hsplit & Hall & Hno & ->).
      exists before, row, after, values.
      split; [exact Hsplit|]. split; [by apply Forall2_accelerometer_row|].
      by apply parse_accelerometer_Raise.
  - unfold read_gps_data. rewrite read_rows_Raise. split.
    + intros (before & row & after & values & Hsplit & Hall & Hrow).
      apply parse_gps_Raise in Hrow as [Hno ->].
      exists before, row, after, values.
      split; [exact Hsplit|]. split; [by apply Forall2_gps_row|].
      split; [exact Hno | reflexivity].
    + intros (before & row & after & values & Hsplit & Hall & Hno & ->).
      exists before, row, after, values.
      split; [exact Hsplit|]. split; [by apply Forall2_gps_row|].
      by apply parse_gps_Raise.
Qed.

Lemma read_rows_bad_row {A : Type} (parse : list string -> Result A)
    (message : list string -> string) (rows : list (list string))
    (data : list A) (row : list string) :
  (forall (r : list string) (e : Exception),
      parse r = Raise e -> e = ValueError (message r)) ->
  row ∈ rows -> (forall value : A, parse row <> Return value) ->
  exists bad : list string,
    read_rows parse rows data = Raise (ValueError (message bad)).
Proof.
  intros Hkind. revert data.
  induction rows as [|r rest IH]; intros data Hin Hbad;
    [by apply elem_of_nil in Hin|].
  simpl. destruct (parse r) as [value|e] eqn:Hr.
  - apply elem_of_cons in Hin as [->|Hin]; [by apply Hbad in Hr|].
    by apply IH.
  - apply Hkind in Hr as ->. eauto.
Qed.

(** X23. A malformed row fails the whole aggregation: when a data row of
    the accelerometer file or of the GPS file is not acceptable, [read]
    raises a [ValueError], returns no record at all and takes no reading
    of the clock, whatever the other files hold. *)
Theorem read_fails_on_a_bad_row (USER_ID : Z) (now : nat -> datetime)
    (accelerometer_file gps_file : CsvFile)
    (read_parking_data : Result (list Parking)) (k : nat) :
  (exists row : list string,
      row ∈ records accelerometer_file /\
      forall a : Accelerometer, ~ accelerometer_row int row a) \/
  (exists row : list string,
      row ∈ records gps_file /\
      forall g : Gps, ~ gps_row to_float row g) ->
  exists message : string,
    read USER_ID now
      (read_accelerometer_data int unpack_error accelerometer_file)
      (read_gps_data to_float unpack_error gps_file)
      read_parking_data k
    = (Raise (ValueError message), k).
Proof.
  intros Hbad.
  assert (Hacc : forall (r : list string) (e : Exception),
             parse_accelerometer int unpack_error r = Raise e ->
             e = ValueError (unpack_error 3%nat r))
    by (intros r e Hr; by apply parse_accelerometer_Raise in Hr as [_ ->]).
  assert (Hgps : forall (r : list string) (e : Exception),
             parse_gps to_float unpack_error r = Raise e ->
             e = ValueError (unpack_error 2%nat r))
    by (intros r e Hr; by apply parse_gps_Raise in Hr as [_ ->]).
  unfold read.
  destruct (read_accelerometer_data int unpack_error accelerometer_file)
    as [accelerometer_data|e] eqn:Hreada.
  - destruct Hbad as [(row & Hin & Hno)|(row & Hin & Hno)].
    + exfalso.
      destruct (read_rows_bad_row _ (unpack_error 3%nat)
                  (records accelerometer_file) [] row Hacc Hin) as [bad Hraise].
      * intros a Ha. apply (Hno a). by apply parse_accelerometer_Return.
      * unfold read_accelerometer_data in Hreada. congruence.
    + destruct (read_rows_bad_row _ (unpack_error 2%nat)
                  (records gps_file) [] row Hgps Hin) as [bad Hraise].
      * intros g Hg. apply (Hno g). by apply parse_gps_Return.
      * unfold read_gps_data. rewrite Hraise. eauto.
  - unfold read_accelerometer_data in Hreada.
    apply read_rows_Raise in Hreada as (before & row & after & values & _ & _ & Hrow).
    apply Hacc in Hrow as ->. eauto.
Qed.

End ReaderFacts.

(* ===================================================================== *)
(** * The further theorems on concrete states                             *)
(* ===================================================================== *)

Section MoreScenarios.
Import Store Sample.

Ltac by_evaluation := apply (bool_decide_unpack _); vm_compute; exact I.

Lemma two_rows_unique : unique_ids (db two_rows_app).
Proof.
  unfold unique_ids. simpl. apply NoDup_cons. split.
  - rewrite list_elem_of_singleton. discriminate.
  - apply NoDup_singleton.
Defined.

Lemma two_rows_below : ids_below_sequence (db two_rows_app).
Proof.
  intros r Hr. apply list_elem_of_In in Hr. simpl in Hr.
  destruct Hr as [<- | [<- | []]]; simpl; lia.
Defined.

Lemma second_row_in_table :
  row_of_values (H := engine) 2 (insert_values_of (H := engine) (record 7 "pit"))
    ∈ rows (db two_rows_app).
Proof. right. left. Defined.

Lemma sample_batch_accepted :
  accepted (H := engine) [record 7 "flat"; record 8 "pit"; record 7 "hill"].
Proof.
  intros d item Hitem. apply list_elem_of_In in Hitem. simpl in Hitem.
  destruct Hitem as [<- | [<- | [<- | []]]]; reflexivity.
Defined.

(** Reading id 2 of the table with the ids 1 and 2. *)
Lemma read_finds_the_row_witness :
  read_processed_agent_data 2 two_rows_app
  = (Return (row_of_values (H := engine) 2
               (insert_values_of (H := engine) (record 7 "pit"))),
     two_rows_app).
Proof.
  apply (read_finds_the_row 2 _ two_rows_app two_rows_unique).
  split; [exact second_row_in_table | reflexivity].
Defined.

(** Updating id 2 with a record of user 9, which the engine accepts,
    and with one whose user id does not fit the column. *)
Lemma update_replaces_every_field_witness :
  (exists app' : App,
      update_processed_agent_data (H := engine) 2 (record 9 "hill") two_rows_app
      = (Return (Some (row_of_data (H := engine) 2 (record 9 "hill"))), app') /\
      read_processed_agent_data 2 app'
      = (Return (row_of_data (H := engine) 2 (record 9 "hill")), app')) /\
  update_processed_agent_data (H := engine) 2 (record 4294967296 "hill")
    two_rows_app
  = (Raise (DatabaseError "integer out of range"), two_rows_app).
Proof.
  split.
  - destruct (update_replaces_every_field (H := engine) 2 (record 9 "hill")
                two_rows_app _ second_row_in_table eq_refl)
      as [Haccepted _].
    destruct (Haccepted eq_refl) as (app' & Hupdate & Hread & _).
    exists app'. split; assumption.
  - destruct (update_replaces_every_field (H := engine) 2
                (record 4294967296 "hill") two_rows_app _
                second_row_in_table eq_refl)
      as [_ Hrejected].
    apply Hrejected. reflexivity.
Defined.

(** Deleting id 2 and asking for it again. *)
Lemma delete_removes_the_row_witness :
  exists (r : ProcessedAgentDataInDB) (app' : App),
    delete_processed_agent_data 2 two_rows_app = (Return r, app') /\
    read_processed_agent_data 2 app' = (Raise (not_found 2), app').
Proof.
  destruct (delete_removes_the_row (H := engine) 2 (record 9 "hill") two_rows_app _
              second_row_in_table eq_refl)
    as (r & app' & Hdelete & _ & _ & Hread & _).
  exists r, app'. split; assumption.
Defined.

(** The third record of a batch sent to the table with the ids 1 and 2
    is read back under id 5. *)
Lemma create_batch_then_read_witness :
  exists (first : ProcessedAgentData) (app' : App),
    create_processed_agent_data (H := engine)
      [record 7 "flat"; record 8 "pit"; record 7 "hill"] two_rows_app
    = (Return (insert_values_of (H := engine) first), app') /\
    read_processed_agent_data 5 app'
    = (Return (row_of_values (H := engine) 5
                 (insert_values_of (H := engine) (record 7 "hill"))),
       app').
Proof.
  destruct (create_batch_then_read (H := engine)
              [record 7 "flat"; record 8 "pit"; record 7 "hill"] two_rows_app
              2 (record 7 "hill") two_rows_below sample_batch_accepted eq_refl)
    as (first & app' & _ & Hcreate & Hread).
  exists first, app'. split; assumption.
Defined.

(** Id 2 is deleted, then a batch of three is created. *)
Lemma deleted_id_is_not_reused_witness :
  absent 2
    (db (snd (create_processed_agent_data (H := engine)
                [record 7 "flat"; record 8 "pit"; record 7 "hill"]
                (snd (delete_processed_agent_data 2 two_rows_app))))).
Proof.
  apply (deleted_id_is_not_reused (H := engine) 2
           [record 7 "flat"; record 8 "pit"; record 7 "hill"] two_rows_app _
           two_rows_below second_row_in_table eq_refl).
Defined.

(** The table with the ids 1 and 2 after a delete. *)
Lemma table_stays_well_formed_witness :
  well_formed (db (snd (delete_processed_agent_data 1 two_rows_app))).
Proof.
  apply (table_stays_well_formed (H := engine) two_rows_app
           (conj two_rows_unique two_rows_below)).
Defined.

(** A record created in the table with the ids 1 and 2, then deleted. *)
Lemma create_then_delete_witness :
  exists app' : App,
    delete_processed_agent_data 3
      (snd (create_processed_agent_data (H := engine) [record 9 "hill"]
              two_rows_app))
    = (Return (row_of_values (H := engine) 3
                 (insert_values_of (H := engine) (record 9 "hill"))),
       app') /\
    rows (db app') = rows (db two_rows_app).
Proof.
  destruct (create_then_delete (H := engine) (record 9 "hill") two_rows_app
              two_rows_below eq_refl)
    as (app' & Hdelete & Hrows & _).
  exists app'. split; assumption.
Defined.

(** A publish to user 7, whose only listener is connected. *)
Lemma publish_reaches_each_listener_once_witness :
  exists new : list (WebSocket * string),
    send_data_to_subscribers (H := engine) 7 "stored" listening_app
    = (Return tt, with_sent listening_app (sent listening_app ++ new)) /\
    length new = 1%nat.
Proof.
  destruct (publish_reaches_each_listener_once (H := engine) 7 "stored"
              listening_app {[ 1%nat ]} eq_refl)
    as (new & Hsend & _ & Hlen & _).
  - intros ws _. by_evaluation.
  - exists new. split; [exact Hsend|]. rewrite Hlen. by vm_compute.
Defined.

(** Listener 4 connects for user 9, who has no entry, and disconnects. *)
Lemma empty_entry_stays_witness :
  subscriptions (snd (websocket_endpoint 4%nat 9 listening_app)) !! 9
  = Some ∅.
Proof.
  apply (empty_entry_stays (H := engine) 4%nat 9 "stored" listening_app eq_refl).
Defined.

(** Listener 4 connects for user 7 and disconnects. *)
Lemma connect_then_disconnect_restores_witness :
  websocket_endpoint 4%nat 7 listening_app = (Return tt, listening_app).
Proof.
  apply (connect_then_disconnect_restores 4%nat 7 listening_app {[ 1%nat ]} eq_refl).
  by_evaluation.
Defined.

(** Listener 4 connects for user 7 and a record is published. *)
Lemma subscribed_listener_receives_witness :
  exists new : list (WebSocket * string),
    sent (snd (send_data_to_subscribers (H := engine) 7 "stored"
                 (websocket_endpoint_accept 4%nat 7 listening_app)))
    = new /\
    (4%nat, "stored") ∈ new.
Proof.
  destruct (subscribed_listener_receives (H := engine) 4%nat 7 "stored"
              listening_app)
    as (new & Hsend & _ & Hin).
  - by_evaluation.
  - intros s ws _ _. by_evaluation.
  - exists new. rewrite Hsend. split; [reflexivity | exact Hin].
Defined.

(** Listener 1 of user 42 disconnects; listener 2, whose connection is
    broken, stays, and the next publish raises at it. *)
Lemma disconnected_listener_receives_nothing_witness :
  exists new : list (WebSocket * string),
    sent (snd (send_data_to_subscribers (H := engine) 42 "stored"
                 (snd (websocket_endpoint_disconnect 1%nat 42 fan_out_app))))
    = sent fan_out_app ++ new /\
    (1%nat, "stored") ∉ new.
Proof.
  destruct (disconnected_listener_receives_nothing (H := engine) 1%nat 42
              "stored" fan_out_app
              (snd (websocket_endpoint_disconnect 1%nat 42 fan_out_app)))
    as (new & Hsent & Hnone).
  - by vm_compute.
  - exists new. split; [exact Hsent | apply Hnone].
Defined.

(** A listener of user 9 does not change a publish to user 7. *)
Lemma other_users_are_unaffected_witness :
  sent (snd (send_data_to_subscribers (H := engine) 7 "stored"
               (websocket_endpoint_accept 4%nat 9 listening_app)))
  = sent (snd (send_data_to_subscribers (H := engine) 7 "stored" listening_app)).
Proof.
  destruct (other_users_are_unaffected (H := engine) 4%nat 9 7 "stored"
              listening_app)
    as (_ & _ & _ & Hsent & _).
  - discriminate.
  - exact Hsent.
Defined.

(** The first entry of each sample sequence, then two more. *)
Lemma read_of_concatenation_witness :
  exists (r1 r2 : list Agent.AggregatedData) (k1 k2 : nat),
    Agent.read 1 clock (Return (take 1 accelerometer_rows))
      (Return (take 1 gps_rows)) (Return (take 1 parking_rows)) 0
    = (Return r1, k1) /\
    Agent.read 1 clock (Return (drop 1 accelerometer_rows))
      (Return (drop 1 gps_rows)) (Return (drop 1 parking_rows)) k1
    = (Return r2, k2) /\
    Agent.read 1 clock (Return accelerometer_rows) (Return gps_rows)
      (Return parking_rows) 0
    = (Return (r1 ++ r2), k2).
Proof.
  apply (read_of_concatenation 1 clock (take 1 accelerometer_rows)
           (drop 1 accelerometer_rows) (take 1 gps_rows) (drop 1 gps_rows)
           (take 1 parking_rows) (drop 1 parking_rows) 0);
    reflexivity.
Defined.

(** The accelerometer file whose second data row ends in [n/a]. *)
Lemma read_fails_on_a_bad_row_witness :
  exists message : string,
    Agent.read 1 clock
      (Agent.read_accelerometer_data sample_int sample_unpack_error
         accelerometer_file)
      (Agent.read_gps_data sample_float sample_unpack_error gps_file)
      (Return parking_rows) 0
    = (Raise (ValueError message), 0%nat).
Proof.
  apply (read_fails_on_a_bad_row sample_int sample_float sample_unpack_error
           1 clock accelerometer_file gps_file (Return parking_rows) 0).
  left. exists ["2"; "-120"; "n/a"]. split.
  - right. left.
  - intros a (sx & sy & sz & Hrow & _ & _ & Hz).
    injection Hrow as <- <- <-. vm_compute in Hz. discriminate Hz.
Defined.

End MoreScenarios.

(* ===================================================================== *)
(** * The registry along the runs of the service                          *)
(* ===================================================================== *)

Section RunFacts.
Import Store.

Lemma NoDup_fst_eq {A B : Type} (l : list (A * B)) (a : A) (b b' : B) :
  NoDup (l.*1) -> (a, b) ∈ l -> (a, b') ∈ l -> b = b'.
Proof.
  induction l as [|[a0 b0] l IH]; simpl; intros Hnd Hb Hb'.
  - by apply elem_of_nil in Hb.
  - apply NoDup_cons in Hnd as [Hfresh Hnd].
    apply elem_of_cons in Hb as [Hb|Hb]; apply elem_of_cons in Hb' as [Hb'|Hb'].
    + injection Hb as _ Hb0. injection Hb' as _ Hb0'. by rewrite Hb0, Hb0'.
    + injection Hb as Ha _. exfalso. apply Hfresh.
      apply list_elem_of_fmap. exists (a, b'). split; [by rewrite Ha | exact Hb'].
    + injection Hb' as Ha _. exfalso. apply Hfresh.
      apply list_elem_of_fmap. exists (a, b). split; [by rewrite Ha | exact Hb].
    + by apply IH.
Qed.

Lemma NoDup_fst_filter {A B : Type} (P : A * B -> Prop)
    `{forall c, Decision (P c)} (l : list (A * B)) :
  NoDup (l.*1) -> NoDup ((filter P l).*1).
Proof.
  induction l as [|c l IH]; simpl; intros Hnd; [constructor|].
  apply NoDup_cons in Hnd as [Hfresh Hnd].
  rewrite filter_cons. destruct (decide (P c)); [|by apply IH].
  simpl. apply NoDup_cons. split; [|by apply IH].
  intros Hin. apply Hfresh.
  apply list_elem_of_fmap in Hin as (c' & Hc' & Hin).
  apply list_elem_of_filter in Hin as [_ Hin].
  apply list_elem_of_fmap. eauto.
Qed.

(** Along a run, the connections in their loop carry distinct WebSocket
    objects, and each of these objects is in the set of its user. *)
Lemma runs_subscribed (live : list (WebSocket * Z)) (seen : gset WebSocket)
    (app : App) :
  runs live seen app ->
  NoDup (live.*1) /\
  forall (ws : WebSocket) (uid : Z),
    (ws, uid) ∈ live ->
    ws ∈ seen /\
    exists s : gset WebSocket, subscriptions app !! uid = Some s /\ ws ∈ s.
Proof.
  induction 1 as [d c l
                 | live seen app websocket user_id Hrun [Hnd IH] Hfresh
                 | live seen app websocket user_id Hrun [Hnd IH] Hlive
                 | live seen app websocket user_id Hrun [Hnd IH]
                 | live seen app app' Hrun [Hnd IH] Hsame].
  - split; [constructor|]. intros ws uid Hin. by apply elem_of_nil in Hin.
  - split.
    + simpl. apply NoDup_cons. split; [|exact Hnd].
      intros Hin. apply list_elem_of_fmap in Hin as ([ws uid] & Hws & Hin).
      simpl in Hws. subst ws. by apply IH in Hin as [Hseen _].
    + intros ws uid Hin. rewrite accept_subscriptions.
      apply elem_of_cons in Hin as [Heq|Hin].
      * injection Heq as -> ->.
        split; [apply elem_of_union_l, elem_of_singleton; reflexivity|].
        eexists. split; [apply lookup_insert_eq|].
        apply elem_of_union_r, elem_of_singleton. reflexivity.
      * destruct (IH ws uid Hin) as (Hseen & s & Hs & Hws).
        split; [by apply elem_of_union_r|].
        destruct (decide (user_id = uid)) as [->|Hne].
        -- eexists. split; [apply lookup_insert_eq|].
           rewrite Hs. simpl. by apply elem_of_union_l.
        -- exists s. split; [by rewrite lookup_insert_ne | exact Hws].
  - destruct (IH websocket user_id Hlive) as (_ & s & Hs & Hin).
    split; [by apply NoDup_fst_filter|].
    intros ws uid Hfiltered.
    apply list_elem_of_filter in Hfiltered as [Hother Hin'].
    destruct (IH ws uid Hin') as (Hseen & s' & Hs' & Hws).
    split; [exact Hseen|].
    unfold websocket_endpoint_disconnect. rewrite Hs.
    destruct (decide (websocket ∈ s)) as [_|Hout]; [|contradiction].
    simpl.
    assert (Hne : ws <> websocket).
    { intros ->. apply Hother. f_equal.
      by apply (NoDup_fst_eq live websocket). }
    destruct (decide (user_id = uid)) as [->|Hneu].
    + eexists. split; [apply lookup_insert_eq|].
      rewrite Hs in Hs'. injection Hs' as <-.
      apply elem_of_difference. split; [exact Hws|].
      rewrite elem_of_singleton. exact Hne.
    + exists s'. split; [by rewrite lookup_insert_ne | exact Hws].
  - split; [by apply NoDup_fst_filter|].
    intros ws uid Hfiltered.
    apply list_elem_of_filter in Hfiltered as [_ Hin]. by apply IH.
  - split; [exact Hnd|]. intros ws uid Hin. rewrite Hsame. by apply IH.
Qed.


End RunFacts.

